(** * go-multikeypair: the keypair and recursive-key codecs

    A shallow embedding of [keypair.go] and [recursivekey.go] together with
    the library routines they call, at the versions [go.mod] names:
    [encoding/binary.Uvarint] and [PutUvarint] of Go 1.17, [UvarintSize] of
    [go-varint] v0.0.6, and the builder and reader of
    [golang.org/x/crypto/cryptobyte].

    Conventions.
    - A Go [uint64] or [int] is a [Z]; wrap-around is written out where the
      source can reach it ([uint64], [int64_of_uint64]).  [int] is 64 bits
      wide, as on every platform the module's [go 1.17] toolchain targets by
      default.
    - A [[]byte] is a [list byte].  Decoding only ever reads its input, so
      sharing of the underlying array is not observable and is not modelled.
    - A Go function returning [(T, error)] returns a [result T]; a function
      that can also panic returns a [go (...)].  The decoders slice their
      input only through [String.read], which checks the length first, so
      they cannot panic and are plain [result]s. *)

From Stdlib Require Import ZArith Lia.
From Stdlib.Strings Require Import Byte.
From stdpp Require Import base list gmap strings.

Local Open Scope Z_scope.

(** ** Bytes and machine integers *)

Definition byte_to_Z (b : byte) : Z := Z.of_N (Byte.to_N b).

(** [uint8(z)]: conversion to a byte keeps the low eight bits. *)
Definition uint8 (z : Z) : byte :=
  match Byte.of_N (Z.to_N (z mod 256)) with
  | Some b => b
  | None => x00
  end.

Definition uint64 (z : Z) : Z := z mod 2 ^ 64.

(** [int(u)] for [u : uint64] on a 64-bit platform: two's complement
    reinterpretation. *)
Definition int64_of_uint64 (u : Z) : Z :=
  if u <? 2 ^ 63 then u else u - 2 ^ 64.

(** [len(s)] as a Go [int]. *)
Definition len {A} (s : list A) : Z := Z.of_nat (length s).

(** ** Errors, results and panics *)

(** The package's exported error values ([errors.New] gives each one its own
    identity). *)
Inductive error : Set :=
  | ErrUnknownCode
  | ErrTooShort
  | ErrTooLong
  | ErrInvalidMultikeypair
  | ErrVarintBufferShort
  | ErrVarintTooLong.

Inductive result (A : Type) : Type :=
  | Ok (a : A)
  | Err (e : error).
Arguments Ok {A} a.
Arguments Err {A} e.

(** The errors a [cryptobyte.Builder] records. *)
Inductive builder_error : Set :=
  | PendingChildLength (length lenLen : Z).

(** What a panic carries: the builder's error handed to [panic(err)], the
    builder's own internal-error panic, or the runtime's index error. *)
Inductive panic_value : Set :=
  | PanicError (e : builder_error)
  | PanicInternal
  | PanicIndexOutOfRange.

Inductive go (A : Type) : Type :=
  | Return (a : A)
  | Panic (p : panic_value).
Arguments Return {A} a.
Arguments Panic {A} p.

(** Sequencing: a panic of the first computation ends the whole. *)
#[global] Instance go_bind : MBind go := fun A B (k : A -> go B) (m : go A) =>
  match m with
  | Return a => k a
  | Panic p => Panic p
  end.

(** ** Varints *)

Definition MaxVarintLen64 : Z := 10.

(** [binary.Uvarint]'s loop, [for i, b := range buf], with the accumulator
    [x] and shift [s]. *)
Fixpoint Uvarint_loop (buf : list byte) (i x s : Z) : Z * Z :=
  match buf with
  | [] => (0, 0)
  | b :: buf' =>
      if i =? MaxVarintLen64 then (0, - (i + 1))
      else if byte_to_Z b <? 0x80 then
        if (i =? MaxVarintLen64 - 1) && (1 <? byte_to_Z b) then (0, - (i + 1))
        else (Z.lor x (uint64 (Z.shiftl (byte_to_Z b) s)), i + 1)
      else
        Uvarint_loop buf' (i + 1)
          (Z.lor x (uint64 (Z.shiftl (Z.land (byte_to_Z b) 0x7f) s))) (s + 7)
  end.

Definition Uvarint (buf : list byte) : Z * Z := Uvarint_loop buf 0 0 0.

(** [bits.Len64]: the number of bits needed to write [x]; 0 for 0. *)
Definition Len64 (x : Z) : Z := if x =? 0 then 0 else Z.log2 x + 1.

(** [varint.UvarintSize]. *)
Definition UvarintSize (num : Z) : Z :=
  let bits := Len64 num in
  let q := bits / 7 in
  let r := bits mod 7 in
  if (0 <? r) || (q =? 0) then q + 1 else q.

(** [binary.PutUvarint] writes [buf[i]] for i = 0, 1, ... in place; the
    recursion walks the cells from [i] on, and running off the end of the
    buffer is the runtime's index panic.  The result is the updated cells and
    the number of bytes written. *)
Fixpoint PutUvarint_from (cells : list byte) (x : Z) : go (list byte * Z) :=
  match cells with
  | [] => Panic PanicIndexOutOfRange
  | _ :: cells' =>
      if 0x80 <=? x then
        r ← PutUvarint_from cells' (Z.shiftr x 7);
        Return (uint8 (Z.lor (byte_to_Z (uint8 x)) 0x80) :: r.1, r.2 + 1)
      else Return (uint8 x :: cells', 1)
  end.

Definition PutUvarint (buf : list byte) (x : Z) : go (list byte * Z) :=
  PutUvarint_from buf x.

(** [make([]byte, size)]. *)
Definition make (size : Z) : list byte := replicate (Z.to_nat size) x00.

Definition PackCode (code : Z) : go (list byte) :=
  let size := UvarintSize code in
  let buf := make size in
  r ← PutUvarint buf code;
  Return r.1.

Definition UnpackCode (buf : list byte) : result Z :=
  let '(code, n) := Uvarint buf in
  if n =? 0 then Err ErrVarintBufferShort
  else if n <? 0 then Err ErrVarintTooLong
  else Ok code.

Definition PackLen (len : Z) : go (list byte) :=
  let l := uint64 len in
  let size := UvarintSize l in
  let buf := make size in
  r ← PutUvarint buf l;
  Return r.1.

Definition UnpackLen (buf : list byte) : result Z :=
  let '(childLen, n) := Uvarint buf in
  if n =? 0 then Err ErrVarintBufferShort
  else if n <? 0 then Err ErrVarintTooLong
  else Ok (int64_of_uint64 childLen).

(** ** cryptobyte.String: the reader *)

(** [String.read]: the first [n] bytes and the advanced string, or nothing
    when fewer than [n] bytes are left. *)
Definition read (n : Z) (s : list byte) : option (list byte * list byte) :=
  if (len s <? n) || (n <? 0) then None
  else Some (take (Z.to_nat n) s, drop (Z.to_nat n) s).

(** The big-endian accumulation [length = length<<8 | uint32(b)]. *)
Definition be_length (lenBytes : list byte) : Z :=
  fold_left (fun length b => Z.lor (Z.shiftl length 8 mod 2 ^ 32) (byte_to_Z b))
    lenBytes 0.

Definition readLengthPrefixed (lenLen : Z) (s : list byte)
  : option (list byte * list byte) :=
  match read lenLen s with
  | None => None
  | Some (lenBytes, s') => read (be_length lenBytes) s'
  end.

Definition ReadUint16LengthPrefixed := readLengthPrefixed 2.
Definition ReadUint24LengthPrefixed := readLengthPrefixed 3.

Definition Empty (s : list byte) : bool := len s =? 0.

(** ** cryptobyte.Builder *)

(** The builder fields the package exercises.  A zero [Builder] is not
    fixed-size and the ASN.1 mode is never requested. *)
Record Builder : Type := mkBuilder {
  b_err : option builder_error;
  b_result : list byte;
  b_offset : Z;
  b_pendingLenLen : Z
}.

Definition zeroBuilder : Builder :=
  {| b_err := None; b_result := []; b_offset := 0; b_pendingLenLen := 0 |}.

Definition BuilderContinuation : Type := Builder -> go Builder.

(** [Builder.add].  Its guard against [len(b.result)+len(bytes)]
    wrapping around [int] cannot fire on slices that fit an address space
    and is left out. *)
Definition add (bytes : list byte) (b : Builder) : Builder :=
  match b_err b with
  | Some _ => b
  | None =>
      {| b_err := None; b_result := b_result b ++ bytes;
         b_offset := b_offset b; b_pendingLenLen := b_pendingLenLen b |}
  end.

Definition AddBytes (v : list byte) : BuilderContinuation :=
  fun b => Return (add v b).

(** The loop of [flushChild] that stores the pending length big-endian:
    [for i := lenLen-1; i >= 0; i-- { result[offset+i] = uint8(l); l >>= 8 }].
    It returns what is left of [l].  [flushChild] runs it after its
    [length < 0] test, when the cells [offset .. offset+lenLen-1] exist, so
    the writes are in range. *)
Fixpoint storeLength (i : nat) (offset : nat) (l : Z) (res : list byte)
  : Z * list byte :=
  match i with
  | O => (l, res)
  | S i' => storeLength i' offset (Z.shiftr l 8) (<[(offset + i')%nat := uint8 l]> res)
  end.

(** [Builder.flushChild] for the child the continuation has left. *)
Definition flushChild (b child : Builder) : go Builder :=
  match b_err child with
  | Some e =>
      Return {| b_err := Some e; b_result := b_result b;
                b_offset := b_offset b; b_pendingLenLen := b_pendingLenLen b |}
  | None =>
      let length := len (b_result child) - b_pendingLenLen child - b_offset child in
      if length <? 0 then Panic PanicInternal
      else
        let '(l, res) :=
          storeLength (Z.to_nat (b_pendingLenLen child))
            (Z.to_nat (b_offset child)) length (b_result child) in
        if negb (l =? 0) then
          Return {| b_err := Some (PendingChildLength length (b_pendingLenLen child));
                    b_result := b_result b;
                    b_offset := b_offset b; b_pendingLenLen := b_pendingLenLen b |}
        else
          Return {| b_err := None; b_result := res;
                    b_offset := b_offset b; b_pendingLenLen := b_pendingLenLen b |}
  end.

(** [Builder.addLengthPrefixed].  [callContinuation] recovers only panics
    that carry a [BuildError]; the package raises none, so a panic of the
    continuation goes through. *)
Definition addLengthPrefixed (lenLen : Z) (f : BuilderContinuation)
  : BuilderContinuation :=
  fun b =>
    match b_err b with
    | Some _ => Return b
    | None =>
        let offset := len (b_result b) in
        let b := add (make lenLen) b in
        let child := {| b_err := None; b_result := b_result b;
                        b_offset := offset; b_pendingLenLen := lenLen |} in
        child' ← f child;
        flushChild b child'
    end.

Definition AddUint16LengthPrefixed := addLengthPrefixed 2.
Definition AddUint24LengthPrefixed := addLengthPrefixed 3.

(** [Builder.Bytes]. *)
Definition Bytes (b : Builder) : list byte + builder_error :=
  match b_err b with
  | Some e => inr e
  | None => inl (drop (Z.to_nat (b_offset b)) (b_result b))
  end.

(** Running one builder call after another on the same builder. *)
Definition andThen (f g : BuilderContinuation) : BuilderContinuation :=
  fun b => b' ← f b; g b'.
Infix ">>" := andThen (at level 62, left associativity).

(** ** keypair.go *)

Definition IDENTITY : Z := 0x00.
Definition ED_25519 : Z := 0x11.
Definition BIP_32 : Z := 0x12.
Definition DSA : Z := 0x13.
Definition RSA : Z := 0x14.

(** [Names] maps a cipher name to its code. *)
Definition Names : gmap string Z :=
  list_to_map [("identity"%string, IDENTITY); ("ed25519"%string, ED_25519);
               ("bip32"%string, BIP_32); ("dsa"%string, DSA);
               ("res"%string, RSA)].

(** [Codes] maps a cipher code to its name. *)
Definition Codes : gmap Z string :=
  list_to_map [(IDENTITY, "identity"%string); (ED_25519, "ed25519"%string);
               (BIP_32, "bip32"%string); (DSA, "dsa"%string);
               (RSA, "rsa"%string)].

(** Indexing a Go map: the zero value stands in for a missing key. *)
Definition Names_at (name : string) : Z := default 0 (Names !! name).
Definition Codes_at (code : Z) : string := default ""%string (Codes !! code).

Record Keypair : Type := mkKeypair {
  Code : Z;
  Name : string;
  Public : list byte;
  PublicLength : Z;
  Private : list byte;
  PrivateLength : Z
}.

(** [for k := range m { if k == code { return nil } }; return ErrUnknownCode]:
    the order in which [range] visits the keys does not matter. *)
Definition rangeHasKey (m : gmap Z string) (code : Z) : option error :=
  if existsb (fun k => k =? code) (map_to_list m).*1 then None
  else Some ErrUnknownCode.

Definition validCode (code : Z) : option error := rangeHasKey Codes code.

Definition encodeKeypair (private public : list byte) (code : Z) : go (list byte) :=
  codeBuf ← PackCode code;
  b ← AddUint24LengthPrefixed
         (AddUint16LengthPrefixed (AddBytes codeBuf)
          >> AddUint16LengthPrefixed (AddBytes private)
          >> AddUint16LengthPrefixed (AddBytes public)) zeroBuilder;
  match Bytes b with
  | inr err => Panic (PanicError err)
  | inl result => Return result
  end.

Definition Encode (private public : list byte) (code : Z) : go (result (list byte)) :=
  match validCode code with
  | Some err => Return (Err err)
  | None =>
      b ← encodeKeypair private public code;
      Return (Ok b)
  end.

Definition EncodeName (private public : list byte) (name : string)
  : go (result (list byte)) :=
  let code := Names_at name in
  Encode private public code.

Definition decodeKeypair (buf : list byte) : result Keypair :=
  let input := buf in
  match ReadUint24LengthPrefixed input with
  | None => Err ErrInvalidMultikeypair
  | Some (values, input) =>
      if negb (Empty input) then Err ErrInvalidMultikeypair
      else
        match ReadUint16LengthPrefixed values with
        | None => Err ErrInvalidMultikeypair
        | Some (code, values) =>
            match UnpackCode code with
            | Err err => Err err
            | Ok numCode =>
                match ReadUint16LengthPrefixed values with
                | None => Err ErrInvalidMultikeypair
                | Some (private, values) =>
                    match ReadUint16LengthPrefixed values with
                    | None => Err ErrInvalidMultikeypair
                    | Some (public, values) =>
                        match validCode numCode with
                        | Some err => Err err
                        | None =>
                            let name := Codes_at numCode in
                            let privateLength := len private in
                            let publicLength := len public in
                            Ok {| Code := numCode;
                                  Name := name;
                                  Private := private;
                                  PrivateLength := privateLength;
                                  Public := public;
                                  PublicLength := publicLength |}
                        end
                    end
                end
            end
        end
  end.

Definition Decode (m : list byte) : result Keypair := decodeKeypair m.

(** ** recursivekey.go *)

(** [RecursiveNames] and [RecursiveCodes]: both registries are empty. *)
Definition RecursiveNames : gmap string Z := ∅.
Definition RecursiveCodes : gmap Z string := ∅.

Module Recursivekey.
Record t : Type := mk {
  Code : Z;
  Name : string;
  Master : list byte;
  MasterLength : Z;
  ChildrenNum : Z;
  Children : list Keypair
}.
End Recursivekey.

Definition validRecursiveCode (code : Z) : option error :=
  rangeHasKey RecursiveCodes code.

(** [for _, child := range children { b.AddUint16LengthPrefixed(...) }]; the
    child is encoded inside the continuation, so only when the builder runs
    it. *)
Fixpoint addChildren (children : list Keypair) : BuilderContinuation :=
  match children with
  | [] => fun b => Return b
  | child :: children' =>
      AddUint16LengthPrefixed
        (fun b =>
           m ← encodeKeypair (Private child) (Public child) (Code child);
           AddBytes m b)
      >> addChildren children'
  end.

Definition encodeRecursivekey (master : list byte) (children : list Keypair)
    (code : Z) : go (list byte) :=
  codeBuf ← PackCode code;
  lenBuf ← PackLen (len children);
  b ← AddUint24LengthPrefixed
         (AddUint16LengthPrefixed (AddBytes codeBuf)
          >> AddUint16LengthPrefixed (AddBytes master)
          >> AddUint16LengthPrefixed (AddBytes lenBuf)
          >> addChildren children) zeroBuilder;
  match Bytes b with
  | inr err => Panic (PanicError err)
  | inl result => Return result
  end.

Definition RecursiveEncode (master : list byte) (children : list Keypair)
    (code : Z) : go (result (list byte)) :=
  match validRecursiveCode code with
  | Some err => Return (Err err)
  | None =>
      b ← encodeRecursivekey master children code;
      Return (Ok b)
  end.

Definition EncodeRecursiveName (master : list byte) (children : list Keypair)
    (name : string) : go (result (list byte)) :=
  let code := Names_at name in
  RecursiveEncode master children code.

(** [for i := 0; i < childLen; i++ { ... }] run for the [n] iterations that
    are left; [values] is the reader's state and [keypairs] the slice built
    so far. *)
Fixpoint decodeChildren (n : nat) (values : list byte) (keypairs : list Keypair)
  : result (list Keypair) :=
  match n with
  | O => Ok keypairs
  | S n' =>
      match ReadUint16LengthPrefixed values with
      | None => Err ErrInvalidMultikeypair
      | Some (children, values) =>
          match decodeKeypair children with
          | Err err => Err err
          | Ok kp => decodeChildren n' values (keypairs ++ [kp])
          end
      end
  end.

Definition decodeRecursivekey (buf : list byte) : result Recursivekey.t :=
  let input := buf in
  match ReadUint24LengthPrefixed input with
  | None => Err ErrInvalidMultikeypair
  | Some (values, input) =>
      if negb (Empty input) then Err ErrInvalidMultikeypair
      else
        match ReadUint16LengthPrefixed values with
        | None => Err ErrInvalidMultikeypair
        | Some (code, values) =>
            match UnpackCode code with
            | Err err => Err err
            | Ok numCode =>
                match ReadUint16LengthPrefixed values with
                | None => Err ErrInvalidMultikeypair
                | Some (master, values) =>
                    match ReadUint16LengthPrefixed values with
                    | None => Err ErrInvalidMultikeypair
                    | Some (childrenNum, values) =>
                        match UnpackLen childrenNum with
                        | Err err => Err err
                        | Ok childLen =>
                            match decodeChildren (Z.to_nat childLen) values [] with
                            | Err err => Err err
                            | Ok keypairs =>
                                match validCode numCode with
                                | Some err => Err err
                                | None =>
                                    let name := Codes_at numCode in
                                    let masterLength := len master in
                                    Ok {| Recursivekey.Code := numCode;
                                          Recursivekey.Name := name;
                                          Recursivekey.Master := master;
                                          Recursivekey.MasterLength := masterLength;
                                          Recursivekey.ChildrenNum := childLen;
                                          Recursivekey.Children := keypairs |}
                                end
                            end
                        end
                    end
                end
            end
        end
  end.

Definition RecursiveDecode (m : list byte) : result Recursivekey.t :=
  decodeRecursivekey m.

(** ** keypair.go and recursivekey.go: the remaining entry points *)

(** The method [(k Keypair) Encode]: it checks the code and calls [Encode],
    which checks it again. *)
Definition Keypair_Encode (k : Keypair) : go (result (list byte)) :=
  match validCode (Code k) with
  | Some err => Return (Err err)
  | None => Encode (Private k) (Public k) (Code k)
  end.

(** The method [(m Multikeypair) Decode]. *)
Definition Multikeypair_Decode (m : list byte) : result Keypair := Decode m.

Definition castKeypair (buf : list byte) : result (list byte) :=
  match decodeKeypair buf with
  | Err err => Err err
  | Ok _ => Ok buf
  end.

(** The method [(k Recursivekey) RecursiveEncode]. *)
Definition Recursivekey_RecursiveEncode (k : Recursivekey.t) : go (result (list byte)) :=
  match validRecursiveCode (Recursivekey.Code k) with
  | Some err => Return (Err err)
  | None =>
      RecursiveEncode (Recursivekey.Master k) (Recursivekey.Children k)
        (Recursivekey.Code k)
  end.

(** The method [(m Multirecursivekey) Decode]. *)
Definition Multirecursivekey_Decode (m : list byte) : result Recursivekey.t :=
  RecursiveDecode m.

Definition castRecursivekey (buf : list byte) : result (list byte) :=
  match decodeRecursivekey buf with
  | Err err => Err err
  | Ok _ => Ok buf
  end.

(** The base-58 entry points.  The codec itself, [b58.Encode] and
    [b58.Decode] of [github.com/mr-tron/base58], is a parameter; the callers
    drop the error [b58.Decode] returns, so its result is an [option]. *)
Section Base58.
Variable b58_Encode : list byte -> string.
Variable b58_Decode : string -> option (list byte).

(** [B58String], the same on a [Multikeypair] and on a [Multirecursivekey]. *)
Definition B58String (m : list byte) : string := b58_Encode m.

Definition MultikeypairFromB58 (s : string) : result (list byte) :=
  match b58_Decode s with
  | None => Err ErrInvalidMultikeypair
  | Some b =>
      match decodeKeypair b with
      | Err err => Err err
      | Ok _ => castKeypair b
      end
  end.

Definition KeypairFromB58 (s : string) : result Keypair :=
  match MultikeypairFromB58 s with
  | Err err => Err err
  | Ok mk =>
      match Multikeypair_Decode mk with
      | Err err => Err err
      | Ok kp => Ok kp
      end
  end.

(** [MultirecursiveFromB58] first decodes the bytes as a flat keypair, then
    as a recursive key. *)
Definition MultirecursiveFromB58 (s : string) : result (list byte) :=
  match b58_Decode s with
  | None => Err ErrInvalidMultikeypair
  | Some b =>
      match decodeKeypair b with
      | Err err => Err err
      | Ok _ => castRecursivekey b
      end
  end.

Definition RecursivekeyFromB58 (s : string) : result Recursivekey.t :=
  match MultirecursiveFromB58 s with
  | Err err => Err err
  | Ok rk =>
      match Multirecursivekey_Decode rk with
      | Err err => Err err
      | Ok kp => Ok kp
      end
  end.

End Base58.

(** A stand-in codec for running the base-58 entry points: the bytes as a
    string, and back. *)
Definition plain_Encode (b : list byte) : string := Stdlib.Strings.String.string_of_list_byte b.
Definition plain_Decode (s : string) : option (list byte) := Some (Stdlib.Strings.String.list_byte_of_string s).

(** ** The wire format, as vocabulary for the statements

    Nothing below is called by the code: these definitions name what the
    builder is proved to produce and what the reader is proved to accept. *)

(** The [n]-byte big-endian form of [l], as [flushChild] stores a length. *)
Fixpoint big_endian (n : nat) (l : Z) : list byte :=
  match n with
  | O => []
  | S n' => big_endian n' (Z.shiftr l 8) ++ [uint8 l]
  end.

(** A field: 16-bit length, then the payload. *)
Definition field (payload : list byte) : list byte :=
  big_endian 2 (len payload) ++ payload.

(** A frame: 24-bit length, then the body. *)
Definition frame (body : list byte) : list byte :=
  big_endian 3 (len body) ++ body.

(** The bytes [PackCode] returns for [x]. *)
Definition uvarint_bytes (x : Z) : list byte :=
  match PackCode x with
  | Return buf => buf
  | Panic _ => []
  end.

(** A byte with the continuation bit set. *)
Definition continues (b : byte) : Prop := 0x80 <= byte_to_Z b.


(** What a builder call does to a builder that has no error yet: it appends
    bytes, or leaves the builder in error, or panics. *)
Inductive effect : Type :=
  | Appends (body : list byte)
  | Fails (e : builder_error)
  | Panics (p : panic_value).

Definition has_effect (f : BuilderContinuation) (eff : effect) : Prop :=
  forall b, b_err b = None ->
    match eff with
    | Appends body => f b = Return (add body b)
    | Fails e =>
        exists r, f b = Return {| b_err := Some e; b_result := r;
                                  b_offset := b_offset b;
                                  b_pendingLenLen := b_pendingLenLen b |}
    | Panics p => f b = Panic p
    end.

(** A builder call that does nothing on a builder in error. *)
Definition skips (f : BuilderContinuation) : Prop :=
  forall b, b_err b <> None -> f b = Return b.

(** The effect of a length-prefixed call, from the effect of its
    continuation. *)
Definition prefixed (lenLen : Z) (eff : effect) : effect :=
  match eff with
  | Appends body =>
      if len body <? 2 ^ (8 * lenLen)
      then Appends (big_endian (Z.to_nat lenLen) (len body) ++ body)
      else Fails (PendingChildLength (len body) lenLen)
  | _ => eff
  end.

(** The effect of one call followed by another. *)
Definition then_effect (e1 e2 : effect) : effect :=
  match e1 with
  | Appends x => match e2 with Appends y => Appends (x ++ y) | _ => e2 end
  | _ => e1
  end.

(** What [b.Bytes()] and the [panic(err)] after it make of the outermost
    call's effect. *)
Definition run (eff : effect) : go (list byte) :=
  match eff with
  | Appends r => Return r
  | Fails e => Panic (PanicError e)
  | Panics p => Panic p
  end.

Definition keypair_effect (codeBuf private public : list byte) : effect :=
  prefixed 3
    (then_effect
       (then_effect (prefixed 2 (Appends codeBuf)) (prefixed 2 (Appends private)))
       (prefixed 2 (Appends public))).

Definition child_effect (child : Keypair) : effect :=
  match encodeKeypair (Private child) (Public child) (Code child) with
  | Return m => Appends m
  | Panic p => Panics p
  end.

Definition children_effect (children : list Keypair) : effect :=
  foldr (fun child eff => then_effect (prefixed 2 (child_effect child)) eff)
    (Appends []) children.

Definition recursivekey_effect (codeBuf master lenBuf : list byte)
    (children : list Keypair) : effect :=
  prefixed 3
    (then_effect
       (then_effect
          (then_effect (prefixed 2 (Appends codeBuf)) (prefixed 2 (Appends master)))
          (prefixed 2 (Appends lenBuf)))
       (children_effect children)).

(** The frame of a child keypair and its size. *)
Definition childFrame (child : Keypair) : list byte :=
  frame (field (uvarint_bytes (Code child))
         ++ field (Private child) ++ field (Public child)).

Definition childFrameLen (child : Keypair) : Z :=
  3 + (2 + UvarintSize (Code child))
    + (2 + len (Private child)) + (2 + len (Public child)).

(** The child fields of a recursive frame, one after the other. *)
Definition childFields (children : list Keypair) : list byte :=
  concat ((fun child => field (childFrame child)) <$> children).

Definition childFieldsLen (children : list Keypair) : Z :=
  foldr (fun child acc => 2 + childFrameLen child + acc) 0 children.

(** The size of the body of a recursive frame: code, master and count
    fields, then the child fields. *)
Definition recursiveBodyLen (master : list byte) (children : list Keypair) (code : Z) : Z :=
  (2 + UvarintSize code) + (2 + len master)
  + (2 + UvarintSize (len children)) + childFieldsLen children.

(** A child whose code is a [uint64] and whose frame fits a 16-bit field. *)
Definition encodable (child : Keypair) : Prop :=
  0 <= Code child < 2 ^ 64 /\ childFrameLen child <= 65535.

(** A valid keypair, as [decodeKeypair] builds them, whose frame fits a
    16-bit field. *)
Definition valid_child (child : Keypair) : Prop :=
  is_Some (Codes !! Code child)
  /\ Name child = Codes_at (Code child)
  /\ PrivateLength child = len (Private child)
  /\ PublicLength child = len (Public child)
  /\ childFrameLen child <= 65535.

(** Sample keypairs. *)
Definition child_a : Keypair := mkKeypair ED_25519 "ed25519" [x63] 1 [x61] 1.
Definition child_b : Keypair := mkKeypair BIP_32 "bip32" [x64] 1 [x62] 1.

(** A child of 65 000 private bytes: 259 of them fit their 16-bit fields one
    by one and overflow the 24-bit frame together. *)
Definition bigChild : Keypair :=
  mkKeypair ED_25519 "ed25519" [] 0 (replicate (Z.to_nat 65000) x00) 65000.

(** * Properties *)

(** ** Sample runs *)

Example Uvarint_300 : Uvarint [xac; x02] = (300, 2).
Proof. reflexivity. Qed.

Example PackCode_300 : PackCode 300 = Return [xac; x02].
Proof. vm_compute. reflexivity. Qed.

Example Encode_ab_cd :
  Encode [x61; x62] [x63; x64] ED_25519
  = Return (Ok [x00; x00; x0b; x00; x01; x11; x00; x02; x61; x62; x00; x02; x63; x64]).
Proof. vm_compute. reflexivity. Qed.

Example Decode_ab_cd :
  Decode [x00; x00; x0b; x00; x01; x11; x00; x02; x61; x62; x00; x02; x63; x64]
  = Ok (mkKeypair ED_25519 "ed25519" [x63; x64] 2 [x61; x62] 2).
Proof. vm_compute. reflexivity. Qed.

Example encodeRecursivekey_m :
  encodeRecursivekey [x6d] [mkKeypair ED_25519 "ed25519" [x63] 1 [x61] 1] BIP_32
  = Return [x00; x00; x17; x00; x01; x12; x00; x01; x6d; x00; x01; x01;
            x00; x0c; x00; x00; x09; x00; x01; x11; x00; x01; x61; x00; x01; x63].
Proof. vm_compute. reflexivity. Qed.

Example RecursiveDecode_m :
  RecursiveDecode [x00; x00; x17; x00; x01; x12; x00; x01; x6d; x00; x01; x01;
            x00; x0c; x00; x00; x09; x00; x01; x11; x00; x01; x61; x00; x01; x63]
  = Ok (Recursivekey.mk BIP_32 "bip32" [x6d] 1 1 [mkKeypair ED_25519 "ed25519" [x63] 1 [x61] 1]).
Proof. vm_compute. reflexivity. Qed.

(** ** Bytes and bit arithmetic *)

Lemma byte_to_Z_range (b : byte) : 0 <= byte_to_Z b < 256.
Proof.
  unfold byte_to_Z. pose proof (Byte.to_N_bounded b). lia.
Qed.

Lemma byte_to_Z_uint8 (z : Z) : byte_to_Z (uint8 z) = z mod 256.
Proof.
  unfold byte_to_Z, uint8.
  assert (Hr : 0 <= z mod 256 < 256) by (apply Z.mod_pos_bound; lia).
  destruct (Byte.of_N (Z.to_N (z mod 256))) as [b|] eqn:E.
  - apply Byte.to_of_N in E. rewrite E. lia.
  - apply Byte.of_N_None_iff in E. lia.
Qed.

Lemma uint8_byte_to_Z (b : byte) : uint8 (byte_to_Z b) = b.
Proof.
  unfold uint8, byte_to_Z.
  pose proof (Byte.to_N_bounded b).
  rewrite Z.mod_small by lia.
  rewrite N2Z.id, Byte.of_to_N. reflexivity.
Qed.

Lemma byte_to_Z_inj (a b : byte) : byte_to_Z a = byte_to_Z b -> a = b.
Proof.
  intros H. rewrite <- (uint8_byte_to_Z a), <- (uint8_byte_to_Z b). now rewrite H.
Qed.

(** Joining a shifted value with bits below the shift is an addition. *)
Lemma lor_shiftl_add (a b k : Z) :
  0 <= k -> 0 <= b < 2 ^ k -> Z.lor (Z.shiftl a k) b = a * 2 ^ k + b.
Proof.
  intros Hk Hb.
  rewrite <- Z.shiftl_mul_pow2 by lia.
  assert (Hland : Z.land (Z.shiftl a k) b = 0).
  { apply Z.bits_inj'. intros n Hn. rewrite Z.land_spec, Z.bits_0.
    destruct (Z.lt_ge_cases n k) as [Hlt|Hge].
    - rewrite Z.shiftl_spec_low by lia. reflexivity.
    - destruct (Z.eq_dec b 0) as [->|Hnz].
      + rewrite Z.bits_0. apply andb_false_r.
      + rewrite (Z.bits_above_log2 b n); [apply andb_false_r | lia |].
        apply Z.log2_lt_pow2; [lia|].
        apply Z.lt_le_trans with (2 ^ k); [lia|].
        apply Z.pow_le_mono_r; lia. }
  rewrite Z.add_nocarry_lxor by exact Hland.
  symmetry. apply Z.lxor_lor. exact Hland.
Qed.

Lemma lor_add_shiftl (a b k : Z) :
  0 <= k -> 0 <= a < 2 ^ k -> Z.lor a (Z.shiftl b k) = a + b * 2 ^ k.
Proof.
  intros. rewrite Z.lor_comm, lor_shiftl_add by lia. lia.
Qed.

(** [byte(x) | 0x80]: the low seven bits of [x] under a set top bit. *)
Lemma lor_0x80 (x : Z) : Z.lor (x mod 256) 0x80 = x mod 128 + 128.
Proof.
  remember (x mod 128) as lo eqn:Elo.
  remember (x mod 256 / 128) as hi eqn:Ehi.
  assert (Hsplit : x mod 256 = lo + hi * 2 ^ 7).
  { subst lo hi. Z.div_mod_to_equations. lia. }
  assert (Hlo : 0 <= lo < 2 ^ 7) by (subst lo; apply Z.mod_pos_bound; lia).
  assert (Hhi : hi = 0 \/ hi = 1).
  { subst hi. Z.div_mod_to_equations. lia. }
  clear Elo Ehi. rewrite Hsplit.
  rewrite <- (lor_add_shiftl lo hi 7) by lia.
  change 0x80 with (Z.shiftl 1 7).
  rewrite <- Z.lor_assoc, <- Z.shiftl_lor.
  replace (Z.lor hi 1) with 1 by (destruct Hhi as [-> | ->]; reflexivity).
  rewrite (lor_add_shiftl lo 1 7) by lia. reflexivity.
Qed.

Lemma land_0x7f (b : Z) : Z.land b 0x7f = b mod 128.
Proof. change 0x7f with (Z.ones 7). rewrite Z.land_ones by lia. reflexivity. Qed.

(** ** Sizes of varints *)

Lemma Len64_small (x : Z) : 0 <= x < 128 -> 0 <= Len64 x <= 7.
Proof.
  intros Hx. unfold Len64. destruct (Z.eqb_spec x 0) as [->|Hnz]; [lia|].
  assert (Z.log2 x < 7) by (apply Z.log2_lt_pow2; lia).
  pose proof (Z.log2_nonneg x). lia.
Qed.

Lemma Len64_step (x : Z) : 128 <= x -> Len64 x = Len64 (Z.shiftr x 7) + 7 /\ 1 <= Len64 (Z.shiftr x 7).
Proof.
  intros Hx. unfold Len64.
  assert (Hs : 1 <= Z.shiftr x 7).
  { rewrite Z.shiftr_div_pow2 by lia. apply Z.div_le_lower_bound; lia. }
  destruct (Z.eqb_spec x 0) as [->|_]; [lia|].
  destruct (Z.eqb_spec (Z.shiftr x 7) 0) as [E|_]; [lia|].
  rewrite Z.log2_shiftr by lia.
  assert (7 <= Z.log2 x) by (apply Z.log2_le_pow2; lia).
  pose proof (Z.log2_nonneg (Z.shiftr x 7)). lia.
Qed.

Lemma UvarintSize_small (x : Z) : 0 <= x < 128 -> UvarintSize x = 1.
Proof.
  intros Hx. unfold UvarintSize. pose proof (Len64_small x Hx) as Hb.
  cbv zeta.
  destruct (Z.ltb_spec 0 (Len64 x mod 7)); destruct (Z.eqb_spec (Len64 x / 7) 0);
    cbn [orb]; Z.div_mod_to_equations; lia.
Qed.

Lemma UvarintSize_step (x : Z) : 128 <= x -> UvarintSize x = UvarintSize (Z.shiftr x 7) + 1.
Proof.
  intros Hx. unfold UvarintSize. destruct (Len64_step x Hx) as [-> Hb].
  cbv zeta.
  set (n := Len64 (Z.shiftr x 7)) in *.
  destruct (Z.ltb_spec 0 ((n + 7) mod 7)); destruct (Z.eqb_spec ((n + 7) / 7) 0);
  destruct (Z.ltb_spec 0 (n mod 7)); destruct (Z.eqb_spec (n / 7) 0);
    cbn [orb]; Z.div_mod_to_equations; lia.
Qed.

Lemma UvarintSize_pos (x : Z) : 1 <= UvarintSize x.
Proof.
  unfold UvarintSize. cbv zeta.
  assert (0 <= Len64 x).
  { unfold Len64. destruct (Z.eqb_spec x 0); [lia|]. pose proof (Z.log2_nonneg x). lia. }
  destruct (Z.ltb_spec 0 (Len64 x mod 7)); destruct (Z.eqb_spec (Len64 x / 7) 0);
    cbn [orb]; Z.div_mod_to_equations; lia.
Qed.

Lemma UvarintSize_le_10 (x : Z) : 0 <= x < 2 ^ 64 -> UvarintSize x <= 10.
Proof.
  intros Hx. unfold UvarintSize. cbv zeta.
  assert (0 <= Len64 x <= 64).
  { unfold Len64. destruct (Z.eqb_spec x 0); [lia|].
    assert (Z.log2 x < 64) by (apply Z.log2_lt_pow2; lia).
    pose proof (Z.log2_nonneg x). lia. }
  destruct (Z.ltb_spec 0 (Len64 x mod 7)); destruct (Z.eqb_spec (Len64 x / 7) 0);
    cbn [orb]; Z.div_mod_to_equations; lia.
Qed.

Lemma len_cons {A} (a : A) (l : list A) : len (a :: l) = len l + 1.
Proof. unfold len. cbn [length]. lia. Qed.

Lemma len_nil {A} : len (@nil A) = 0.
Proof. reflexivity. Qed.

Lemma len_app {A} (l k : list A) : len (l ++ k) = len l + len k.
Proof. unfold len. rewrite length_app. lia. Qed.

Lemma len_nonneg {A} (l : list A) : 0 <= len l.
Proof. unfold len. lia. Qed.

(** A buffer of at least [UvarintSize x] cells takes [x] without a panic. *)
Lemma PutUvarint_from_fits (cells : list byte) (x : Z) :
  0 <= x -> UvarintSize x <= len cells ->
  exists buf, PutUvarint_from cells x = Return (buf, UvarintSize x)
              /\ len buf = len cells.
Proof.
  revert x. induction cells as [|c cells IH]; intros x Hx Hsz.
  - pose proof (UvarintSize_pos x). rewrite len_nil in Hsz. lia.
  - cbn [PutUvarint_from]. destruct (Z.leb_spec 0x80 x) as [Hge|Hlt].
    + rewrite (UvarintSize_step x Hge) in *. rewrite len_cons in Hsz.
      destruct (IH (Z.shiftr x 7)) as (buf & -> & Hlen).
      { apply Z.shiftr_nonneg. lia. }
      { lia. }
      cbn. eexists. split; [reflexivity|]. rewrite !len_cons. lia.
    + rewrite UvarintSize_small by lia. eexists. split; [reflexivity|].
      rewrite !len_cons. lia.
Qed.

(** ** Varint round trip *)

Lemma index_cases (i : Z) :
  0 <= i <= 9 ->
  i = 0 \/ i = 1 \/ i = 2 \/ i = 3 \/ i = 4 \/ i = 5 \/ i = 6 \/ i = 7 \/ i = 8 \/ i = 9.
Proof. lia. Qed.

Lemma uint64_small (z : Z) : 0 <= z < 2 ^ 64 -> uint64 z = z.
Proof. intros. unfold uint64. apply Z.mod_small. lia. Qed.

(** One step of [Uvarint] on a continuation byte written by [PutUvarint]. *)
Lemma Uvarint_loop_continue (x : Z) (buf : list byte) (i acc : Z) :
  0 <= i <= 9 -> 128 <= x < 2 ^ (64 - 7 * i) -> 0 <= acc < 2 ^ (7 * i) ->
  Uvarint_loop (uint8 (Z.lor (byte_to_Z (uint8 x)) 0x80) :: buf) i acc (7 * i)
  = Uvarint_loop buf (i + 1) (acc + x mod 128 * 2 ^ (7 * i)) (7 * (i + 1))
  /\ i <= 8
  /\ 0 <= acc + x mod 128 * 2 ^ (7 * i) < 2 ^ (7 * (i + 1)).
Proof.
  intros Hi Hx Hacc.
  assert (Hb : byte_to_Z (uint8 (Z.lor (byte_to_Z (uint8 x)) 0x80)) = x mod 128 + 128).
  { rewrite byte_to_Z_uint8, byte_to_Z_uint8, lor_0x80.
    pose proof (Z.mod_pos_bound x 128 ltac:(lia)). apply Z.mod_small. lia. }
  assert (Hm : 0 <= x mod 128 < 128) by (apply Z.mod_pos_bound; lia).
  cbn [Uvarint_loop]. rewrite Hb, land_0x7f.
  replace ((x mod 128 + 128) mod 128) with (x mod 128)
    by (Z.div_mod_to_equations; lia).
  unfold MaxVarintLen64.
  destruct (Z.eqb_spec i 10); [lia|].
  destruct (Z.ltb_spec (x mod 128 + 128) 128); [lia|].
  destruct (index_cases i Hi) as [->|[->|[->|[->|[->|[->|[->|[->|[->| ->]]]]]]]]];
    cbn in Hx, Hacc |- *;
    try lia;
    (rewrite uint64_small by (rewrite Z.shiftl_mul_pow2 by lia; lia));
    (rewrite lor_add_shiftl by lia);
    (split; [reflexivity | lia]).
Qed.

(** The step of [Uvarint] on the closing byte. *)
Lemma Uvarint_loop_last (x : Z) (buf : list byte) (i acc : Z) :
  0 <= i <= 9 -> 0 <= x < 128 -> x < 2 ^ (64 - 7 * i) -> 0 <= acc < 2 ^ (7 * i) ->
  Uvarint_loop (uint8 x :: buf) i acc (7 * i) = (acc + x * 2 ^ (7 * i), i + 1).
Proof.
  intros Hi Hx Hx' Hacc.
  assert (Hb : byte_to_Z (uint8 x) = x).
  { rewrite byte_to_Z_uint8. apply Z.mod_small. lia. }
  cbn [Uvarint_loop]. rewrite Hb. unfold MaxVarintLen64.
  destruct (Z.eqb_spec i 10); [lia|].
  destruct (Z.ltb_spec x 128); [|lia].
  destruct (index_cases i Hi) as [->|[->|[->|[->|[->|[->|[->|[->|[->| ->]]]]]]]]];
    cbn in Hx', Hacc |- *;
    try (destruct (Z.ltb_spec 1 x); [lia|]);
    (rewrite uint64_small by (rewrite Z.shiftl_mul_pow2 by lia; lia));
    (rewrite lor_add_shiftl by lia);
    reflexivity.
Qed.

(** Reading back what [PutUvarint] wrote, from any position of the reader's
    loop that leaves room for [x]. *)
Lemma Uvarint_loop_PutUvarint (cells : list byte) :
  forall (x : Z) (buf : list byte) (n i acc : Z),
    PutUvarint_from cells x = Return (buf, n) ->
    0 <= i <= 9 -> 0 <= x < 2 ^ (64 - 7 * i) -> 0 <= acc < 2 ^ (7 * i) ->
    Uvarint_loop buf i acc (7 * i) = (acc + x * 2 ^ (7 * i), i + n).
Proof.
  induction cells as [|c cells IH]; intros x buf n i acc Hput Hi Hx Hacc.
  - discriminate.
  - cbn [PutUvarint_from] in Hput. destruct (Z.leb_spec 0x80 x) as [Hge|Hlt].
    + destruct (PutUvarint_from cells (Z.shiftr x 7)) as [[r1 r2]|] eqn:Hrec;
        [|discriminate].
      cbn in Hput. injection Hput as <- <-.
      destruct (Uvarint_loop_continue x r1 i acc Hi) as (-> & Hi8 & Hacc');
        [lia | exact Hacc |].
      assert (Hsh : Z.shiftr x 7 = x / 128) by (rewrite Z.shiftr_div_pow2; [reflexivity|lia]).
      assert (Hpow : 2 ^ (64 - 7 * i) = 128 * 2 ^ (64 - 7 * (i + 1))).
      { replace (64 - 7 * i) with (7 + (64 - 7 * (i + 1))) by lia.
        rewrite Z.pow_add_r by lia. reflexivity. }
      assert (Hpow' : 2 ^ (7 * (i + 1)) = 128 * 2 ^ (7 * i)).
      { replace (7 * (i + 1)) with (7 + 7 * i) by lia.
        rewrite Z.pow_add_r by lia. reflexivity. }
      rewrite (IH (Z.shiftr x 7) r1 r2 (i + 1) _ Hrec); [| lia | | exact Hacc'].
      * f_equal; [|lia]. rewrite Hsh, Hpow'.
        pose proof (Z.div_mod x 128 ltac:(lia)) as Hdm.
        rewrite Hdm at 3. ring.
      * rewrite Hsh. split; [apply Z.div_pos; lia|].
        apply Z.div_lt_upper_bound; [lia|]. rewrite <- Hpow. lia.
    + injection Hput as <- <-.
      apply Uvarint_loop_last; auto; lia.
Qed.

Lemma make_len (size : Z) : 0 <= size -> len (make size) = size.
Proof. intros. unfold len, make. rewrite length_replicate. lia. Qed.

(** [PackCode] never panics on a [uint64], and [UnpackCode] inverts it. *)
Lemma PackCode_UnpackCode (code : Z) :
  0 <= code < 2 ^ 64 ->
  exists codeBuf, PackCode code = Return codeBuf
                  /\ UnpackCode codeBuf = Ok code
                  /\ len codeBuf = UvarintSize code.
Proof.
  intros Hc. unfold PackCode, PutUvarint. cbv zeta.
  pose proof (UvarintSize_pos code) as Hpos.
  destruct (PutUvarint_from_fits (make (UvarintSize code)) code) as (buf & Hput & Hlen).
  { lia. }
  { rewrite make_len by lia. lia. }
  rewrite Hput. cbn. exists buf. split; [reflexivity|].
  rewrite make_len in Hlen by lia. split; [|exact Hlen].
  unfold UnpackCode, Uvarint.
  change (Uvarint_loop buf 0 0 0) with (Uvarint_loop buf 0 0 (7 * 0)).
  rewrite (Uvarint_loop_PutUvarint _ _ _ _ 0 0 Hput) by (cbn; lia).
  destruct (Z.eqb_spec (0 + UvarintSize code) 0); [lia|].
  destruct (Z.ltb_spec (0 + UvarintSize code) 0); [lia|].
  f_equal. cbn. lia.
Qed.

Lemma PackLen_UnpackLen (n : Z) :
  0 <= n < 2 ^ 63 ->
  exists lenBuf, PackLen n = Return lenBuf
                 /\ UnpackLen lenBuf = Ok n
                 /\ len lenBuf = UvarintSize n.
Proof.
  intros Hn. unfold PackLen, PutUvarint. cbv zeta.
  rewrite uint64_small by lia.
  pose proof (UvarintSize_pos n) as Hpos.
  destruct (PutUvarint_from_fits (make (UvarintSize n)) n) as (buf & Hput & Hlen).
  { lia. }
  { rewrite make_len by lia. lia. }
  rewrite Hput. cbn. exists buf. split; [reflexivity|].
  rewrite make_len in Hlen by lia. split; [|exact Hlen].
  unfold UnpackLen, Uvarint.
  change (Uvarint_loop buf 0 0 0) with (Uvarint_loop buf 0 0 (7 * 0)).
  rewrite (Uvarint_loop_PutUvarint _ _ _ _ 0 0 Hput) by (cbn; lia).
  destruct (Z.eqb_spec (0 + UvarintSize n) 0); [lia|].
  destruct (Z.ltb_spec (0 + UvarintSize n) 0); [lia|].
  f_equal. unfold int64_of_uint64. cbn [Z.mul Z.pow]. 
  replace (0 + n * 2 ^ (7 * 0)) with n by (cbn; lia).
  destruct (Z.ltb_spec n (2 ^ 63)); lia.
Qed.

Lemma PackCode_uvarint_bytes (x : Z) :
  0 <= x < 2 ^ 64 ->
  PackCode x = Return (uvarint_bytes x)
  /\ UnpackCode (uvarint_bytes x) = Ok x
  /\ len (uvarint_bytes x) = UvarintSize x.
Proof.
  intros Hx. destruct (PackCode_UnpackCode x Hx) as (buf & Hp & Hu & Hl).
  unfold uvarint_bytes. rewrite Hp. auto.
Qed.

Lemma PackLen_uvarint_bytes (n : Z) :
  0 <= n < 2 ^ 63 ->
  PackLen n = Return (uvarint_bytes n) /\ UnpackLen (uvarint_bytes n) = Ok n.
Proof.
  intros Hn. destruct (PackLen_UnpackLen n Hn) as (buf & Hp & Hu & _).
  assert (HE : PackLen n = PackCode n).
  { unfold PackLen, PackCode. now rewrite uint64_small by lia. }
  unfold uvarint_bytes. rewrite <- HE, Hp. auto.
Qed.

(** ** The reader *)

Lemma length_big_endian (n : nat) (l : Z) : length (big_endian n l) = n.
Proof.
  revert l. induction n as [|n IH]; intros l; cbn [big_endian]; [reflexivity|].
  rewrite length_app, IH. cbn. lia.
Qed.

Lemma len_big_endian (n : nat) (l : Z) : len (big_endian n l) = Z.of_nat n.
Proof. unfold len. now rewrite length_big_endian. Qed.

Lemma read_app (x rest : list byte) : read (len x) (x ++ rest) = Some (x, rest).
Proof.
  unfold read. rewrite len_app.
  pose proof (len_nonneg x). pose proof (len_nonneg rest).
  destruct (Z.ltb_spec (len x + len rest) (len x)); [lia|].
  destruct (Z.ltb_spec (len x) 0); [lia|]. cbn [orb].
  unfold len. rewrite Nat2Z.id.
  now rewrite take_app_length, drop_app_length.
Qed.

Lemma read_Some (n : Z) (s x rest : list byte) :
  read n s = Some (x, rest) -> s = x ++ rest /\ len x = n.
Proof.
  unfold read.
  destruct (Z.ltb_spec (len s) n); [discriminate|].
  destruct (Z.ltb_spec n 0); [discriminate|]. cbn [orb].
  intros [= <- <-]. split; [now rewrite take_drop|].
  unfold len in *. rewrite length_take. lia.
Qed.


Lemma be_length_2 (a b : byte) :
  be_length [a; b] = byte_to_Z a * 256 + byte_to_Z b.
Proof.
  unfold be_length. cbn [fold_left].
  pose proof (byte_to_Z_range a). pose proof (byte_to_Z_range b).
  rewrite Z.shiftl_0_l, Z.mod_0_l, Z.lor_0_l by lia.
  rewrite (Z.mod_small (Z.shiftl _ _)) by (rewrite Z.shiftl_mul_pow2; lia).
  rewrite lor_shiftl_add by lia. reflexivity.
Qed.

Lemma be_length_3 (a b c : byte) :
  be_length [a; b; c] = (byte_to_Z a * 256 + byte_to_Z b) * 256 + byte_to_Z c.
Proof.
  unfold be_length. cbn [fold_left].
  pose proof (byte_to_Z_range a). pose proof (byte_to_Z_range b).
  pose proof (byte_to_Z_range c).
  rewrite Z.shiftl_0_l, Z.mod_0_l, Z.lor_0_l by lia.
  rewrite (Z.mod_small (Z.shiftl (byte_to_Z a) 8)) by (rewrite Z.shiftl_mul_pow2; lia).
  rewrite (lor_shiftl_add (byte_to_Z a)) by lia.
  rewrite (Z.mod_small (Z.shiftl _ _)) by (rewrite Z.shiftl_mul_pow2; lia).
  rewrite lor_shiftl_add by lia. reflexivity.
Qed.

Lemma big_endian_2 (l : Z) : big_endian 2 l = [uint8 (Z.shiftr l 8); uint8 l].
Proof. reflexivity. Qed.

Lemma big_endian_3 (l : Z) :
  big_endian 3 l = [uint8 (Z.shiftr (Z.shiftr l 8) 8); uint8 (Z.shiftr l 8); uint8 l].
Proof. reflexivity. Qed.

Lemma be_length_big_endian_2 (l : Z) :
  0 <= l < 2 ^ 16 -> be_length (big_endian 2 l) = l.
Proof.
  intros Hl. rewrite big_endian_2, be_length_2, !byte_to_Z_uint8.
  rewrite Z.shiftr_div_pow2 by lia. change (2 ^ 8) with 256.
  change (2 ^ 16) with 65536 in Hl.
  Z.div_mod_to_equations. lia.
Qed.

Lemma be_length_big_endian_3 (l : Z) :
  0 <= l < 2 ^ 24 -> be_length (big_endian 3 l) = l.
Proof.
  intros Hl. rewrite big_endian_3, be_length_3, !byte_to_Z_uint8.
  rewrite !Z.shiftr_div_pow2 by lia. change (2 ^ 8) with 256.
  change (2 ^ 24) with 16777216 in Hl.
  Z.div_mod_to_equations. lia.
Qed.

Lemma big_endian_2_be_length (a b : byte) : big_endian 2 (be_length [a; b]) = [a; b].
Proof.
  rewrite big_endian_2, be_length_2.
  pose proof (byte_to_Z_range a). pose proof (byte_to_Z_range b).
  f_equal; [|f_equal]; apply byte_to_Z_inj; rewrite byte_to_Z_uint8;
    rewrite ?Z.shiftr_div_pow2 by lia; change (2 ^ 8) with 256;
    Z.div_mod_to_equations; lia.
Qed.

Lemma big_endian_3_be_length (a b c : byte) :
  big_endian 3 (be_length [a; b; c]) = [a; b; c].
Proof.
  rewrite big_endian_3, be_length_3.
  pose proof (byte_to_Z_range a). pose proof (byte_to_Z_range b).
  pose proof (byte_to_Z_range c).
  f_equal; [|f_equal; [|f_equal]]; apply byte_to_Z_inj; rewrite byte_to_Z_uint8;
    rewrite ?Z.shiftr_div_pow2 by lia; change (2 ^ 8) with 256;
    Z.div_mod_to_equations; lia.
Qed.

(** Reading a field back: the 16-bit prefix written for [x] hands out [x]. *)
Lemma ReadUint16_field (x rest : list byte) :
  len x < 2 ^ 16 -> ReadUint16LengthPrefixed (field x ++ rest) = Some (x, rest).
Proof.
  intros Hx. unfold ReadUint16LengthPrefixed, readLengthPrefixed, field.
  rewrite <- app_assoc.
  change 2 with (Z.of_nat 2) at 1. rewrite <- (len_big_endian 2 (len x)).
  rewrite read_app, be_length_big_endian_2 by (pose proof (len_nonneg x); lia).
  apply read_app.
Qed.

Lemma ReadUint24_frame (x rest : list byte) :
  len x < 2 ^ 24 -> ReadUint24LengthPrefixed (frame x ++ rest) = Some (x, rest).
Proof.
  intros Hx. unfold ReadUint24LengthPrefixed, readLengthPrefixed, frame.
  rewrite <- app_assoc.
  change 3 with (Z.of_nat 3) at 1. rewrite <- (len_big_endian 3 (len x)).
  rewrite read_app, be_length_big_endian_3 by (pose proof (len_nonneg x); lia).
  apply read_app.
Qed.

(** Conversely, whatever the reader accepts is a field followed by the rest. *)
Lemma ReadUint16_Some (s x rest : list byte) :
  ReadUint16LengthPrefixed s = Some (x, rest) ->
  s = field x ++ rest /\ len x < 2 ^ 16.
Proof.
  unfold ReadUint16LengthPrefixed, readLengthPrefixed.
  destruct (read 2 s) as [[lenBytes s']|] eqn:Hr; [|discriminate].
  apply read_Some in Hr as [-> Hl]. intros Hr.
  apply read_Some in Hr as [-> Hx].
  destruct lenBytes as [|a [|b [|c lenBytes]]]; try (unfold len in Hl; cbn [length] in Hl; lia).
  unfold field. rewrite Hx, big_endian_2_be_length.
  split; [now rewrite <- app_assoc|].
  rewrite be_length_2.
  pose proof (byte_to_Z_range a). pose proof (byte_to_Z_range b). lia.
Qed.

Lemma ReadUint24_Some (s x rest : list byte) :
  ReadUint24LengthPrefixed s = Some (x, rest) ->
  s = frame x ++ rest /\ len x < 2 ^ 24.
Proof.
  unfold ReadUint24LengthPrefixed, readLengthPrefixed.
  destruct (read 3 s) as [[lenBytes s']|] eqn:Hr; [|discriminate].
  apply read_Some in Hr as [-> Hl]. intros Hr.
  apply read_Some in Hr as [-> Hx].
  destruct lenBytes as [|a [|b [|c [|d lenBytes]]]]; try (unfold len in Hl; cbn [length] in Hl; lia).
  unfold frame. rewrite Hx, big_endian_3_be_length.
  split; [now rewrite <- app_assoc|].
  rewrite be_length_3.
  pose proof (byte_to_Z_range a). pose proof (byte_to_Z_range b).
  pose proof (byte_to_Z_range c). lia.
Qed.

(** ** The builder *)

Lemma storeLength_spec (n : nat) :
  forall (offset : nat) (l : Z) (pre mid post : list byte),
    length pre = offset -> length mid = n ->
    storeLength n offset l (pre ++ mid ++ post)
    = (Z.shiftr l (8 * Z.of_nat n), pre ++ big_endian n l ++ post).
Proof.
  induction n as [|n IH]; intros offset l pre mid post Hpre Hmid.
  - destruct mid; [|discriminate]. cbn. now rewrite Z.shiftr_0_r.
  - destruct mid as [|x mid _] using rev_ind; [discriminate|].
    rewrite length_app in Hmid. cbn in Hmid.
    assert (Hmid' : length mid = n) by lia.
    cbn [storeLength big_endian].
    replace (pre ++ (mid ++ [x]) ++ post) with (pre ++ mid ++ x :: post)
      by (now rewrite <- (app_assoc mid)).
    rewrite <- Hpre, insert_app_r.
    rewrite (insert_app_r_alt mid) by lia.
    replace (n - length mid)%nat with 0%nat by lia.
    cbn [insert list_insert].
    rewrite (IH (length pre) _ pre mid (uint8 l :: post) eq_refl Hmid').
    rewrite Z.shiftr_shiftr by lia.
    f_equal; [f_equal; lia|].
    now rewrite <- (app_assoc (big_endian n _)).
Qed.

Lemma shiftr_eq_0_lt (l n : Z) : 0 <= l -> 0 <= n -> (Z.shiftr l n =? 0) = (l <? 2 ^ n).
Proof.
  intros Hl Hn. rewrite Z.shiftr_div_pow2 by lia.
  assert (0 < 2 ^ n) by (apply Z.pow_pos_nonneg; lia).
  destruct (Z.ltb_spec l (2 ^ n)) as [Hlt|Hge].
  - rewrite Z.div_small by lia. reflexivity.
  - apply Z.eqb_neq. intros E.
    assert (1 <= l / 2 ^ n) by (apply Z.div_le_lower_bound; lia). lia.
Qed.

Lemma AddBytes_effect (v : list byte) : has_effect (AddBytes v) (Appends v).
Proof. intros b Hb. reflexivity. Qed.

Lemma addLengthPrefixed_effect (lenLen : Z) (f : BuilderContinuation) (eff : effect) :
  0 <= lenLen -> has_effect f eff ->
  has_effect (addLengthPrefixed lenLen f) (prefixed lenLen eff).
Proof.
  intros Hn Hf b Hb.
  assert (Hadd : forall v, add v b
            = mkBuilder None (b_result b ++ v) (b_offset b) (b_pendingLenLen b)).
  { intros v. unfold add. now rewrite Hb. }
  unfold addLengthPrefixed. rewrite Hb, Hadd.
  cbn [b_err b_result b_offset b_pendingLenLen].
  set (child := mkBuilder None (b_result b ++ make lenLen) (len (b_result b)) lenLen).
  specialize (Hf child eq_refl).
  destruct eff as [body|e|p]; cbn [prefixed].
  - rewrite Hf. cbn [mbind go_bind]. unfold flushChild, add. subst child.
    cbn [b_err b_result b_offset b_pendingLenLen].
    pose proof (len_nonneg body) as Hbody.
    rewrite !len_app, make_len by lia.
    replace (len (b_result b) + lenLen + len body - lenLen - len (b_result b))
      with (len body) by lia.
    destruct (Z.ltb_spec (len body) 0); [lia|].
    rewrite <- app_assoc.
    rewrite storeLength_spec;
      [| unfold len; now rewrite Nat2Z.id
       | unfold make; now rewrite length_replicate].
    rewrite Z2Nat.id by lia.
    rewrite shiftr_eq_0_lt by lia.
    destruct (Z.ltb_spec (len body) (2 ^ (8 * lenLen))); cbn [negb].
    + now rewrite Hb.
    + eexists. reflexivity.
  - destruct Hf as [r Hf]. rewrite Hf. cbn [mbind go_bind]. unfold flushChild.
    cbn [b_err]. eexists. reflexivity.
  - rewrite Hf. reflexivity.
Qed.

Lemma addLengthPrefixed_skips (lenLen : Z) (f : BuilderContinuation) :
  skips (addLengthPrefixed lenLen f).
Proof.
  intros b Hb. unfold addLengthPrefixed. destruct (b_err b); [reflexivity|congruence].
Qed.

Lemma andThen_effect (f g : BuilderContinuation) (e1 e2 : effect) :
  has_effect f e1 -> has_effect g e2 -> skips g ->
  has_effect (f >> g) (then_effect e1 e2).
Proof.
  intros Hf Hg Hs b Hb. unfold andThen. specialize (Hf b Hb).
  destruct e1 as [x|e|p]; cbn [then_effect].
  - rewrite Hf. cbn [mbind go_bind].
    assert (Hb' : b_err (add x b) = None) by (unfold add; now rewrite Hb).
    specialize (Hg (add x b) Hb').
    destruct e2 as [y|e|p].
    + rewrite Hg. unfold add. rewrite Hb. cbn. now rewrite app_assoc.
    + destruct Hg as [r Hg]. rewrite Hg. unfold add. rewrite Hb. cbn. eauto.
    + exact Hg.
  - destruct Hf as [r Hf]. rewrite Hf. cbn [mbind go_bind].
    rewrite Hs by (cbn; congruence). eauto.
  - rewrite Hf. reflexivity.
Qed.

Lemma andThen_skips (f g : BuilderContinuation) : skips f -> skips g -> skips (f >> g).
Proof.
  intros Hf Hg b Hb. unfold andThen. rewrite Hf by exact Hb. cbn. now apply Hg.
Qed.

(** What [Bytes] hands back after the outermost call on a fresh builder. *)
Lemma Bytes_effect (f : BuilderContinuation) (eff : effect) :
  has_effect f eff ->
  (b ← f zeroBuilder;
   match Bytes b with
   | inr err => Panic (PanicError err)
   | inl result => Return result
   end) = run eff.
Proof.
  intros Hf. specialize (Hf zeroBuilder eq_refl).
  destruct eff as [body|e|p]; cbn [run].
  - rewrite Hf. reflexivity.
  - destruct Hf as [r ->]. reflexivity.
  - rewrite Hf. reflexivity.
Qed.

Lemma encodeKeypair_effect (private public : list byte) (code : Z) (codeBuf : list byte) :
  PackCode code = Return codeBuf ->
  encodeKeypair private public code = run (keypair_effect codeBuf private public).
Proof.
  intros Hp. unfold encodeKeypair. rewrite Hp. cbn [mbind go_bind].
  apply Bytes_effect.
  apply addLengthPrefixed_effect; [lia|].
  repeat apply andThen_effect;
    try apply addLengthPrefixed_skips;
    (apply addLengthPrefixed_effect; [lia|]); apply AddBytes_effect.
Qed.

Lemma prefixed_2_fits (x : list byte) :
  len x < 2 ^ 16 -> prefixed 2 (Appends x) = Appends (field x).
Proof.
  intros Hx. cbn [prefixed]. change (2 ^ (8 * 2)) with (2 ^ 16).
  destruct (Z.ltb_spec (len x) (2 ^ 16)); [reflexivity|lia].
Qed.

Lemma prefixed_3_fits (x : list byte) :
  len x < 2 ^ 24 -> prefixed 3 (Appends x) = Appends (frame x).
Proof.
  intros Hx. cbn [prefixed]. change (2 ^ (8 * 3)) with (2 ^ 24).
  destruct (Z.ltb_spec (len x) (2 ^ 24)); [reflexivity|lia].
Qed.

Lemma prefixed_2_over (x : list byte) :
  2 ^ 16 <= len x -> prefixed 2 (Appends x) = Fails (PendingChildLength (len x) 2).
Proof.
  intros Hx. cbn [prefixed]. change (2 ^ (8 * 2)) with (2 ^ 16).
  destruct (Z.ltb_spec (len x) (2 ^ 16)); [lia|reflexivity].
Qed.

Lemma prefixed_3_over (x : list byte) :
  2 ^ 24 <= len x -> prefixed 3 (Appends x) = Fails (PendingChildLength (len x) 3).
Proof.
  intros Hx. cbn [prefixed]. change (2 ^ (8 * 3)) with (2 ^ 24).
  destruct (Z.ltb_spec (len x) (2 ^ 24)); [lia|reflexivity].
Qed.

Lemma len_field (x : list byte) : len (field x) = 2 + len x.
Proof. unfold field. rewrite len_app, len_big_endian. lia. Qed.

Lemma len_frame (x : list byte) : len (frame x) = 3 + len x.
Proof. unfold frame. rewrite len_app, len_big_endian. lia. Qed.

(** ** The flat codec *)

Lemma rangeHasKey_None (m : gmap Z string) (code : Z) :
  rangeHasKey m code = None <-> is_Some (m !! code).
Proof.
  unfold rangeHasKey.
  destruct (existsb _ _) eqn:E.
  - split; [intros _|reflexivity].
    apply existsb_exists in E as (k & Hin & Hk).
    apply Z.eqb_eq in Hk as ->.
    apply list_elem_of_In, list_elem_of_fmap in Hin as ([k v] & -> & Hin).
    apply elem_of_map_to_list in Hin. cbn. eauto.
  - split; [discriminate|]. intros [v Hv]. exfalso.
    apply Bool.not_true_iff_false in E. apply E.
    apply existsb_exists. exists code. split; [|apply Z.eqb_refl].
    apply list_elem_of_In, list_elem_of_fmap. exists (code, v).
    split; [reflexivity|]. now apply elem_of_map_to_list.
Qed.

Lemma rangeHasKey_Some (m : gmap Z string) (code : Z) (e : error) :
  rangeHasKey m code = Some e <-> m !! code = None /\ e = ErrUnknownCode.
Proof.
  pose proof (rangeHasKey_None m code) as Hn.
  unfold rangeHasKey in *. destruct (existsb _ _).
  - split; [discriminate|]. intros [Hm _].
    destruct Hn as [Hn _]. destruct (Hn eq_refl) as [v Hv]. congruence.
  - split.
    + intros [= <-]. split; [|reflexivity].
      destruct (m !! code) eqn:Hm; [|reflexivity].
      destruct Hn as [_ Hn]. discriminate Hn. eauto.
    + intros [_ ->]. reflexivity.
Qed.

Lemma validCode_None (code : Z) : validCode code = None <-> is_Some (Codes !! code).
Proof. apply rangeHasKey_None. Qed.

Lemma validCode_Some (code : Z) (e : error) :
  validCode code = Some e <-> Codes !! code = None /\ e = ErrUnknownCode.
Proof. apply rangeHasKey_Some. Qed.

Lemma Codes_registered (code : Z) :
  is_Some (Codes !! code) ->
  code = IDENTITY \/ code = ED_25519 \/ code = BIP_32 \/ code = DSA \/ code = RSA.
Proof.
  intros [v Hv]. unfold Codes in Hv. cbn [list_to_map foldr] in Hv.
  repeat (apply lookup_insert_Some in Hv as [[<- _]|[_ Hv]]; [tauto|]).
  now rewrite lookup_empty in Hv.
Qed.

Lemma Codes_uint64 (code : Z) : is_Some (Codes !! code) -> 0 <= code < 2 ^ 64.
Proof.
  intros H. apply Codes_registered in H.
  unfold IDENTITY, ED_25519, BIP_32, DSA, RSA in H. lia.
Qed.

Lemma Empty_nil : Empty [] = true.
Proof. reflexivity. Qed.

(** Decoding a frame that starts with three fields: what follows them inside
    the frame is never looked at. *)
Lemma decodeKeypair_frame (codeBuf private public extra : list byte) :
  len codeBuf < 2 ^ 16 -> len private < 2 ^ 16 -> len public < 2 ^ 16 ->
  len (field codeBuf ++ field private ++ field public ++ extra) < 2 ^ 24 ->
  decodeKeypair (frame (field codeBuf ++ field private ++ field public ++ extra))
  = match UnpackCode codeBuf with
    | Err err => Err err
    | Ok numCode =>
        match validCode numCode with
        | Some err => Err err
        | None => Ok {| Code := numCode; Name := Codes_at numCode;
                        Private := private; PrivateLength := len private;
                        Public := public; PublicLength := len public |}
        end
    end.
Proof.
  intros Hc Hp Hq Hlen. unfold decodeKeypair.
  rewrite <- (app_nil_r (frame _)), ReadUint24_frame by exact Hlen.
  rewrite Empty_nil. cbn [negb].
  rewrite ReadUint16_field by exact Hc.
  destruct (UnpackCode codeBuf) as [numCode|err]; [|reflexivity].
  rewrite ReadUint16_field by exact Hp.
  rewrite ReadUint16_field by exact Hq.
  reflexivity.
Qed.

Lemma encodeKeypair_frame (private public : list byte) (code : Z) (codeBuf : list byte) :
  PackCode code = Return codeBuf ->
  len codeBuf < 2 ^ 16 -> len private < 2 ^ 16 -> len public < 2 ^ 16 ->
  encodeKeypair private public code
  = Return (frame (field codeBuf ++ field private ++ field public)).
Proof.
  intros Hpack Hc Hp Hq. rewrite (encodeKeypair_effect _ _ _ _ Hpack).
  unfold keypair_effect.
  rewrite !prefixed_2_fits by assumption. cbn [then_effect].
  rewrite prefixed_3_fits.
  - cbn [run]. now rewrite <- app_assoc.
  - rewrite !len_app, !len_field. lia.
Qed.

Lemma Encode_Decode_frame (private public : list byte) (code : Z) :
  is_Some (Codes !! code) ->
  len private <= 65535 -> len public <= 65535 ->
  Encode private public code
  = Return (Ok (frame (field (uvarint_bytes code) ++ field private ++ field public)))
  /\ Decode (frame (field (uvarint_bytes code) ++ field private ++ field public))
     = Ok {| Code := code; Name := Codes_at code;
             Private := private; PrivateLength := len private;
             Public := public; PublicLength := len public |}.
Proof.
  intros Hcode Hp Hq.
  destruct (PackCode_uvarint_bytes code (Codes_uint64 code Hcode))
    as (Hpack & Hunpack & Hlen).
  pose proof (UvarintSize_le_10 code (Codes_uint64 code Hcode)) as Hsz.
  split.
  - unfold Encode. rewrite (proj2 (validCode_None code) Hcode).
    rewrite (encodeKeypair_frame _ _ _ _ Hpack) by lia. reflexivity.
  - unfold Decode. rewrite <- (app_nil_r (field public)).
    rewrite decodeKeypair_frame;
      [| lia | lia | lia | rewrite !len_app, !len_field, len_nil; lia].
    rewrite Hunpack, (proj2 (validCode_None code) Hcode). reflexivity.
Qed.

(** C1.  Round trip of the flat codec: for a code of the [Codes] registry and
    private and public keys of at most 65535 bytes each, [Encode] returns a
    frame and [Decode] of that frame returns the keypair with that code, the
    registry's name for it, the two byte sequences and their lengths. *)
Theorem Decode_Encode (private public : list byte) (code : Z) :
  is_Some (Codes !! code) ->
  len private <= 65535 -> len public <= 65535 ->
  exists m, Encode private public code = Return (Ok m)
            /\ Decode m = Ok {| Code := code; Name := Codes_at code;
                                Private := private; PrivateLength := len private;
                                Public := public; PublicLength := len public |}.
Proof.
  intros Hcode Hp Hq. eexists. exact (Encode_Decode_frame _ _ _ Hcode Hp Hq).
Qed.

Lemma Decode_Encode_witness :
  is_Some (Codes !! ED_25519)
  /\ len [x61; x62] <= 65535 /\ len [x63; x64] <= 65535
  /\ exists m, Encode [x61; x62] [x63; x64] ED_25519 = Return (Ok m)
            /\ Decode m = Ok {| Code := ED_25519; Name := Codes_at ED_25519;
                                Private := [x61; x62]; PrivateLength := len [x61; x62];
                                Public := [x63; x64]; PublicLength := len [x63; x64] |}.
Proof.
  assert (H1 : is_Some (Codes !! ED_25519)) by (vm_compute; eauto).
  assert (H2 : len [x61; x62] <= 65535) by (vm_compute; discriminate).
  assert (H3 : len [x63; x64] <= 65535) by (vm_compute; discriminate).
  exact (conj H1 (conj H2 (conj H3
    (Decode_Encode [x61; x62] [x63; x64] ED_25519 H1 H2 H3)))).
Defined.

(** ** Unknown codes and extra fields *)

Lemma UnpackCode_Err (buf : list byte) (e : error) :
  UnpackCode buf = Err e -> e = ErrVarintBufferShort \/ e = ErrVarintTooLong.
Proof.
  unfold UnpackCode. destruct (Uvarint buf) as [code n].
  destruct (n =? 0); [intros [= <-]; auto|].
  destruct (n <? 0); [intros [= <-]; auto|discriminate].
Qed.

Lemma Empty_true (s : list byte) : Empty s = true -> s = [].
Proof.
  unfold Empty, len. destruct s; [reflexivity|]. cbn [length].
  intros H. apply Z.eqb_eq in H. lia.
Qed.

(** [ErrUnknownCode] comes out of [decodeKeypair] only once the frame and
    its three fields have been read. *)
Lemma decodeKeypair_UnknownCode (buf : list byte) :
  decodeKeypair buf = Err ErrUnknownCode ->
  exists codeBuf private public extra numCode,
    buf = frame (field codeBuf ++ field private ++ field public ++ extra)
    /\ UnpackCode codeBuf = Ok numCode
    /\ Codes !! numCode = None.
Proof.
  unfold decodeKeypair.
  destruct (ReadUint24LengthPrefixed buf) as [[values input]|] eqn:H24; [|discriminate].
  apply ReadUint24_Some in H24 as [-> _].
  destruct (Empty input) eqn:HE; cbn [negb]; [|discriminate].
  apply Empty_true in HE as ->. rewrite app_nil_r.
  destruct (ReadUint16LengthPrefixed values) as [[codeBuf values1]|] eqn:H1; [|discriminate].
  apply ReadUint16_Some in H1 as [-> _].
  destruct (UnpackCode codeBuf) as [numCode|err] eqn:HU.
  2:{ intros [= ->]. apply UnpackCode_Err in HU as [?|?]; discriminate. }
  destruct (ReadUint16LengthPrefixed values1) as [[private values2]|] eqn:H2; [|discriminate].
  apply ReadUint16_Some in H2 as [-> _].
  destruct (ReadUint16LengthPrefixed values2) as [[public values3]|] eqn:H3; [|discriminate].
  apply ReadUint16_Some in H3 as [-> _].
  destruct (validCode numCode) as [err|] eqn:HV; [|discriminate].
  apply validCode_Some in HV as [HV _]. intros _.
  exists codeBuf, private, public, values3, numCode. auto.
Qed.

(** C7.  A buffer that is a well-formed frame of three fields whose code
    field unpacks to a code outside [Codes] makes [Decode] fail with
    [ErrUnknownCode]; that error is not [ErrInvalidMultikeypair]; and
    [Decode] returns [ErrUnknownCode] only for buffers whose frame and three
    fields were read and whose code field unpacked. *)
Theorem Decode_unknown_code (codeBuf private public : list byte) (numCode : Z) :
  len codeBuf <= 65535 -> len private <= 65535 -> len public <= 65535 ->
  UnpackCode codeBuf = Ok numCode ->
  Codes !! numCode = None ->
  Decode (frame (field codeBuf ++ field private ++ field public)) = Err ErrUnknownCode
  /\ ErrUnknownCode <> ErrInvalidMultikeypair
  /\ (forall buf, Decode buf = Err ErrUnknownCode ->
        exists codeBuf' private' public' extra numCode',
          buf = frame (field codeBuf' ++ field private' ++ field public' ++ extra)
          /\ UnpackCode codeBuf' = Ok numCode'
          /\ Codes !! numCode' = None).
Proof.
  intros Hc Hp Hq HU HC. split; [|split].
  - unfold Decode. rewrite <- (app_nil_r (field public)).
    rewrite decodeKeypair_frame;
      [| lia | lia | lia | rewrite !len_app, !len_field, len_nil; lia].
    rewrite HU.
    destruct (validCode numCode) as [err|] eqn:HV.
    + apply validCode_Some in HV as [_ ->]. reflexivity.
    + apply validCode_None in HV as [v Hv]. congruence.
  - discriminate.
  - exact decodeKeypair_UnknownCode.
Qed.

Lemma Decode_unknown_code_witness :
  len [x15] <= 65535 /\ len [x61] <= 65535 /\ len [x62] <= 65535
  /\ UnpackCode [x15] = Ok 0x15
  /\ Codes !! 0x15 = None
  /\ Decode (frame (field [x15] ++ field [x61] ++ field [x62])) = Err ErrUnknownCode.
Proof.
  assert (H1 : len [x15] <= 65535) by (vm_compute; discriminate).
  assert (H2 : len [x61] <= 65535) by (vm_compute; discriminate).
  assert (H3 : len [x62] <= 65535) by (vm_compute; discriminate).
  assert (H4 : UnpackCode [x15] = Ok 0x15) by reflexivity.
  assert (H5 : Codes !! 0x15 = None) by reflexivity.
  exact (conj H1 (conj H2 (conj H3 (conj H4 (conj H5
    (proj1 (Decode_unknown_code [x15] [x61] [x62] 0x15 H1 H2 H3 H4 H5))))))).
Defined.

Lemma validRecursiveCode_unknown (code : Z) :
  validRecursiveCode code = Some ErrUnknownCode.
Proof. apply rangeHasKey_Some. split; [apply lookup_empty|reflexivity]. Qed.

Lemma RecursiveEncode_unknown (master : list byte) (children : list Keypair) (code : Z) :
  RecursiveEncode master children code = Return (Err ErrUnknownCode).
Proof. unfold RecursiveEncode. now rewrite validRecursiveCode_unknown. Qed.

(** C3.  [RecursiveCodes] is empty, so [validRecursiveCode] returns
    [ErrUnknownCode] for every code and [RecursiveEncode] returns
    [ErrUnknownCode] for every master key, list of children and code. *)
Theorem RecursiveEncode_UnknownCode (master : list byte) (children : list Keypair)
    (code : Z) :
  RecursiveCodes = ∅
  /\ validRecursiveCode code = Some ErrUnknownCode
  /\ RecursiveEncode master children code = Return (Err ErrUnknownCode).
Proof.
  split; [reflexivity|]. split.
  - apply validRecursiveCode_unknown.
  - apply RecursiveEncode_unknown.
Qed.

Lemma Encode_not_Err (private public : list byte) (code : Z) (e : error) :
  is_Some (Codes !! code) -> Encode private public code <> Return (Err e).
Proof.
  intros Hc. unfold Encode. rewrite (proj2 (validCode_None code) Hc).
  destruct (encodeKeypair private public code); cbn; discriminate.
Qed.

Lemma IDENTITY_registered : is_Some (Codes !! IDENTITY).
Proof. vm_compute. eauto. Qed.

(** C10.  For a name that is not a key of [Names] the lookup gives code 0,
    which is [IDENTITY] and is registered: [EncodeName] is [Encode] under
    [IDENTITY], it never returns [ErrUnknownCode], and for keys of at most
    65535 bytes it returns a frame that decodes to an [IDENTITY] keypair. *)
Theorem EncodeName_missing_name (private public : list byte) (name : string) :
  Names !! name = None ->
  EncodeName private public name = Encode private public IDENTITY
  /\ EncodeName private public name <> Return (Err ErrUnknownCode)
  /\ (len private <= 65535 -> len public <= 65535 ->
      exists m, EncodeName private public name = Return (Ok m)
                /\ Decode m = Ok {| Code := IDENTITY; Name := "identity";
                                    Private := private; PrivateLength := len private;
                                    Public := public; PublicLength := len public |}).
Proof.
  intros Hn.
  assert (HE : EncodeName private public name = Encode private public IDENTITY).
  { unfold EncodeName, Names_at. rewrite Hn. reflexivity. }
  rewrite HE. split; [reflexivity|]. split.
  - apply Encode_not_Err, IDENTITY_registered.
  - intros Hp Hq. eexists.
    exact (Encode_Decode_frame private public IDENTITY IDENTITY_registered Hp Hq).
Qed.

Lemma EncodeName_missing_name_witness :
  Names !! "rsa"%string = None
  /\ Names !! "res"%string = Some RSA
  /\ EncodeName [x61] [x62] "rsa" = Encode [x61] [x62] IDENTITY
  /\ EncodeName [x61] [x62] "rsa" <> Return (Err ErrUnknownCode)
  /\ exists m, EncodeName [x61] [x62] "rsa" = Return (Ok m)
               /\ Decode m = Ok {| Code := IDENTITY; Name := "identity";
                                   Private := [x61]; PrivateLength := len [x61];
                                   Public := [x62]; PublicLength := len [x62] |}.
Proof.
  assert (H : Names !! "rsa"%string = None) by reflexivity.
  split; [exact H|]. split; [reflexivity|].
  pose proof (EncodeName_missing_name [x61] [x62] "rsa" H) as (H1 & H2 & H3).
  split; [exact H1|]. split; [exact H2|].
  apply H3; vm_compute; discriminate.
Defined.

Lemma ReadUint16_nil : ReadUint16LengthPrefixed [] = None.
Proof. reflexivity. Qed.

(** C6, as the code has it.  [Decode] reads the first three fields of the
    frame and nothing after them: whatever follows the third field inside
    the frame (further fields, say) does not change the result, which is the
    keypair of the first three fields when the code field unpacks to a
    registered code.  A frame of two fields or of one fails with
    [ErrInvalidMultikeypair] when its code field unpacks and with the code
    field's varint error when it does not; a frame of no field fails with
    [ErrInvalidMultikeypair]. *)
Theorem Decode_first_three_fields (codeBuf private public extra : list byte) :
  len codeBuf <= 65535 -> len private <= 65535 -> len public <= 65535 ->
  len (field codeBuf ++ field private ++ field public ++ extra) <= 16777215 ->
  Decode (frame (field codeBuf ++ field private ++ field public ++ extra))
  = Decode (frame (field codeBuf ++ field private ++ field public))
  /\ (forall numCode,
        UnpackCode codeBuf = Ok numCode -> is_Some (Codes !! numCode) ->
        Decode (frame (field codeBuf ++ field private ++ field public ++ extra))
        = Ok {| Code := numCode; Name := Codes_at numCode;
                Private := private; PrivateLength := len private;
                Public := public; PublicLength := len public |})
  /\ Decode (frame (field codeBuf ++ field private))
     = Err match UnpackCode codeBuf with
           | Err err => err
           | Ok _ => ErrInvalidMultikeypair
           end
  /\ Decode (frame (field codeBuf))
     = Err match UnpackCode codeBuf with
           | Err err => err
           | Ok _ => ErrInvalidMultikeypair
           end
  /\ Decode (frame []) = Err ErrInvalidMultikeypair.
Proof.
  intros Hc Hp Hq Hlen.
  pose proof (decodeKeypair_frame codeBuf private public extra
                ltac:(lia) ltac:(lia) ltac:(lia) ltac:(lia)) as Hmore.
  pose proof (len_nonneg extra) as Hextra.
  rewrite !len_app, !len_field in Hlen.
  split; [|split; [|split; [|split]]].
  - unfold Decode. rewrite Hmore.
    rewrite <- (app_nil_r (field public)).
    rewrite decodeKeypair_frame;
      [reflexivity | lia | lia | lia | rewrite !len_app, !len_field, len_nil; lia].
  - intros numCode HU HC. unfold Decode.
    now rewrite Hmore, HU, (proj2 (validCode_None numCode) HC).
  - unfold Decode, decodeKeypair.
    rewrite <- (app_nil_r (frame _)), ReadUint24_frame
      by (rewrite !len_app, !len_field; lia).
    rewrite Empty_nil. cbn [negb].
    rewrite ReadUint16_field by lia.
    destruct (UnpackCode codeBuf) as [numCode|err]; [|reflexivity].
    rewrite <- (app_nil_r (field private)), ReadUint16_field by lia.
    now rewrite ReadUint16_nil.
  - unfold Decode, decodeKeypair.
    rewrite <- (app_nil_r (frame _)), ReadUint24_frame
      by (rewrite !len_field; lia).
    rewrite Empty_nil. cbn [negb].
    rewrite <- (app_nil_r (field codeBuf)), ReadUint16_field by lia.
    destruct (UnpackCode codeBuf) as [numCode|err]; [|reflexivity].
    now rewrite ReadUint16_nil.
  - reflexivity.
Qed.

(** A frame of four one-byte fields: [Decode] accepts it. *)
Lemma Decode_four_fields_accepted :
  [x00; x00; x0c; x00; x01; x11; x00; x01; x61; x00; x01; x62; x00; x01; x63]
  = frame (field [x11] ++ field [x61] ++ field [x62] ++ field [x63])
  /\ Decode [x00; x00; x0c; x00; x01; x11; x00; x01; x61; x00; x01; x62; x00; x01; x63]
     = Ok {| Code := ED_25519; Name := "ed25519";
             Private := [x61]; PrivateLength := 1;
             Public := [x62]; PublicLength := 1 |}
  /\ Decode [x00; x00; x0c; x00; x01; x11; x00; x01; x61; x00; x01; x62; x00; x01; x63]
     <> Err ErrInvalidMultikeypair.
Proof.
  split; [reflexivity|]. split; [reflexivity|]. vm_compute. discriminate.
Qed.

Lemma Decode_first_three_fields_witness :
  (len [x11] <= 65535 /\ len [x61] <= 65535 /\ len [x62] <= 65535
   /\ len (field [x11] ++ field [x61] ++ field [x62] ++ field [x63]) <= 16777215)
  /\ Decode (frame (field [x11] ++ field [x61] ++ field [x62] ++ field [x63]))
     = Ok {| Code := 0x11; Name := Codes_at 0x11;
             Private := [x61]; PrivateLength := len [x61];
             Public := [x62]; PublicLength := len [x62] |}
  /\ Decode (frame (field [x11] ++ field [x61])) = Err ErrInvalidMultikeypair
  /\ Decode (frame (field [] ++ field [x61])) = Err ErrVarintBufferShort
  /\ Decode (frame (field [])) = Err ErrVarintBufferShort.
Proof.
  assert (H1 : len [x11] <= 65535) by (vm_compute; discriminate).
  assert (H0 : len (@nil byte) <= 65535) by (vm_compute; discriminate).
  assert (H2 : len [x61] <= 65535) by (vm_compute; discriminate).
  assert (H3 : len [x62] <= 65535) by (vm_compute; discriminate).
  assert (H4 : len (field [x11] ++ field [x61] ++ field [x62] ++ field [x63])
               <= 16777215) by (vm_compute; discriminate).
  assert (H5 : len (field [] ++ field [x61] ++ field [x62] ++ field [x63])
               <= 16777215) by (vm_compute; discriminate).
  pose proof (Decode_first_three_fields [x11] [x61] [x62] (field [x63]) H1 H2 H3 H4)
    as (_ & Hok & Htwo & _).
  pose proof (Decode_first_three_fields [] [x61] [x62] (field [x63]) H0 H2 H3 H5)
    as (_ & _ & Htwo' & Hone' & _).
  refine (conj (conj H1 (conj H2 (conj H3 H4))) (conj _ (conj Htwo (conj Htwo' Hone')))).
  apply Hok; [reflexivity | vm_compute; eauto].
Defined.

(** ** Varint boundaries *)

(** Over a run of continuation bytes that stays within the first
    [MaxVarintLen64] positions, the reader's loop only moves on. *)
Lemma Uvarint_loop_continues (pre : list byte) :
  forall (rest : list byte) (i x s : Z),
    Forall continues pre -> 0 <= i -> i + len pre <= MaxVarintLen64 ->
    exists x' s', Uvarint_loop (pre ++ rest) i x s
                  = Uvarint_loop rest (i + len pre) x' s'.
Proof.
  induction pre as [|b pre IH]; intros rest i x s Hc Hi Hlen.
  - exists x, s. rewrite len_nil, Z.add_0_r. reflexivity.
  - apply Forall_cons in Hc as [Hb Hc]. rewrite len_cons in Hlen |- *.
    pose proof (len_nonneg pre).
    cbn [app Uvarint_loop]. unfold continues in Hb.
    destruct (Z.eqb_spec i MaxVarintLen64); [lia|].
    destruct (Z.ltb_spec (byte_to_Z b) 0x80); [lia|].
    destruct (IH rest (i + 1) (Z.lor x (uint64 (Z.shiftl (Z.land (byte_to_Z b) 0x7f) s)))
                (s + 7) Hc) as (x' & s' & ->); [lia | lia |].
    exists x', s'. f_equal. lia.
Qed.

(** C8, as the code has it.  [UnpackCode] fails with [ErrVarintBufferShort]
    on the empty buffer and on any buffer of at most ten bytes that all carry
    the continuation bit; ten such bytes followed by at least one more byte
    fail with [ErrVarintTooLong]; and [PackCode 0] is the single byte 0. *)
Theorem UnpackCode_boundaries (pre rest : list byte) :
  Forall continues pre -> len pre <= 10 ->
  UnpackCode [] = Err ErrVarintBufferShort
  /\ UnpackCode pre = Err ErrVarintBufferShort
  /\ (len pre = 10 -> rest <> [] -> UnpackCode (pre ++ rest) = Err ErrVarintTooLong)
  /\ PackCode 0 = Return [x00].
Proof.
  intros Hc Hlen. split; [reflexivity|]. split; [|split; [|reflexivity]].
  - unfold UnpackCode, Uvarint.
    destruct (Uvarint_loop_continues pre [] 0 0 0 Hc) as (x' & s' & H);
      [lia | unfold MaxVarintLen64; lia |].
    rewrite app_nil_r in H. rewrite H. reflexivity.
  - intros H10 Hrest. unfold UnpackCode, Uvarint.
    destruct (Uvarint_loop_continues pre rest 0 0 0 Hc) as (x' & s' & ->);
      [lia | unfold MaxVarintLen64; lia |].
    rewrite H10. destruct rest as [|b rest]; [congruence|]. reflexivity.
Qed.

(** Ten continuation bytes and nothing after them: the buffer is too short,
    not too long. *)
Lemma UnpackCode_ten_continuation_bytes :
  Forall continues (replicate 10 x80)
  /\ UnpackCode (replicate 10 x80) = Err ErrVarintBufferShort
  /\ UnpackCode (replicate 10 x80) <> Err ErrVarintTooLong.
Proof.
  split; [|split; [reflexivity|discriminate]].
  repeat constructor; vm_compute; discriminate.
Qed.

Lemma UnpackCode_boundaries_witness :
  Forall continues (replicate 10 x80) /\ len (replicate 10 x80) <= 10
  /\ UnpackCode (replicate 10 x80 ++ [x00]) = Err ErrVarintTooLong.
Proof.
  assert (H1 : Forall continues (replicate 10 x80))
    by (repeat constructor; vm_compute; discriminate).
  assert (H2 : len (replicate 10 x80) <= 10) by (vm_compute; discriminate).
  refine (conj H1 (conj H2 _)).
  refine (proj1 (proj2 (proj2 (UnpackCode_boundaries (replicate 10 x80) [x00] H1 H2))) _ _).
  - reflexivity.
  - discriminate.
Defined.

(** ** The recursive codec *)

Lemma addChildren_skips (children : list Keypair) : skips (addChildren children).
Proof.
  destruct children as [|child children]; cbn [addChildren].
  - intros b _. reflexivity.
  - apply andThen_skips; [apply addLengthPrefixed_skips|].
    induction children as [|c cs IH]; cbn [addChildren].
    + intros b _. reflexivity.
    + apply andThen_skips; [apply addLengthPrefixed_skips|exact IH].
Qed.

Lemma child_continuation_effect (child : Keypair) :
  has_effect
    (fun b => m ← encodeKeypair (Private child) (Public child) (Code child);
              AddBytes m b)
    (child_effect child).
Proof.
  intros b Hb. unfold child_effect.
  destruct (encodeKeypair _ _ _); reflexivity.
Qed.

Lemma addChildren_effect (children : list Keypair) :
  has_effect (addChildren children) (children_effect children).
Proof.
  induction children as [|child children IH]; cbn [addChildren children_effect foldr].
  - intros b Hb. unfold add. rewrite Hb. destruct b; cbn in *. subst.
    now rewrite app_nil_r.
  - apply andThen_effect; [|exact IH|apply addChildren_skips].
    apply addLengthPrefixed_effect; [lia|]. apply child_continuation_effect.
Qed.

Lemma encodeRecursivekey_effect (master : list byte) (children : list Keypair)
    (code : Z) (codeBuf lenBuf : list byte) :
  PackCode code = Return codeBuf ->
  PackLen (len children) = Return lenBuf ->
  encodeRecursivekey master children code
  = run (recursivekey_effect codeBuf master lenBuf children).
Proof.
  intros Hc Hl. unfold encodeRecursivekey. rewrite Hc, Hl. cbn [mbind go_bind].
  apply Bytes_effect.
  apply addLengthPrefixed_effect; [lia|].
  apply andThen_effect; [|apply addChildren_effect|apply addChildren_skips].
  repeat apply andThen_effect;
    try apply addLengthPrefixed_skips;
    (apply addLengthPrefixed_effect; [lia|]); apply AddBytes_effect.
Qed.

Lemma childFrameLen_bounds (child : Keypair) :
  childFrameLen child <= 65535 ->
  len (Private child) <= 65535 /\ len (Public child) <= 65535.
Proof.
  unfold childFrameLen. pose proof (UvarintSize_pos (Code child)).
  pose proof (len_nonneg (Private child)). pose proof (len_nonneg (Public child)). lia.
Qed.

Lemma len_childFrame (child : Keypair) :
  0 <= Code child < 2 ^ 64 -> len (childFrame child) = childFrameLen child.
Proof.
  intros Hc. destruct (PackCode_uvarint_bytes _ Hc) as (_ & _ & Hl).
  unfold childFrame, childFrameLen.
  rewrite len_frame, !len_app, !len_field, Hl. lia.
Qed.

Lemma child_effect_encodable (child : Keypair) :
  encodable child -> child_effect child = Appends (childFrame child).
Proof.
  intros [Hc Hlen]. destruct (PackCode_uvarint_bytes _ Hc) as (Hp & _ & Hl).
  destruct (childFrameLen_bounds child Hlen).
  pose proof (UvarintSize_le_10 _ Hc).
  unfold child_effect. rewrite (encodeKeypair_frame _ _ _ _ Hp) by lia. reflexivity.
Qed.

Lemma children_effect_encodable (children : list Keypair) :
  Forall encodable children ->
  children_effect children = Appends (childFields children)
  /\ len (childFields children) = childFieldsLen children.
Proof.
  induction 1 as [|child children Hc Hcs [IH IHlen]]; [split; reflexivity|].
  cbn [children_effect foldr childFields fmap list_fmap concat childFieldsLen].
  fold (children_effect children). fold (childFields children).
  fold (childFieldsLen children).
  rewrite (child_effect_encodable _ Hc), IH.
  pose proof (len_childFrame child (proj1 Hc)) as Hl. destruct Hc as [_ Hc].
  rewrite prefixed_2_fits by lia. cbn [then_effect]. split; [reflexivity|].
  rewrite len_app, len_field, IHlen, Hl. lia.
Qed.

Lemma childFieldsLen_ge (children : list Keypair) :
  2 * len children <= childFieldsLen children.
Proof.
  induction children as [|child children IH]; [reflexivity|].
  cbn [childFieldsLen foldr]. fold (childFieldsLen children). rewrite len_cons.
  unfold childFrameLen. pose proof (UvarintSize_pos (Code child)).
  pose proof (len_nonneg (Private child)). pose proof (len_nonneg (Public child)). lia.
Qed.

Lemma valid_child_encodable (child : Keypair) : valid_child child -> encodable child.
Proof.
  intros (Hc & _ & _ & _ & Hl). split; [now apply Codes_uint64|exact Hl].
Qed.

Lemma decodeKeypair_childFrame (child : Keypair) :
  valid_child child -> decodeKeypair (childFrame child) = Ok child.
Proof.
  intros (Hc & Hn & Hp & Hq & Hl).
  destruct (PackCode_uvarint_bytes _ (Codes_uint64 _ Hc)) as (_ & Hu & Hlen).
  pose proof (UvarintSize_le_10 _ (Codes_uint64 _ Hc)).
  destruct (childFrameLen_bounds child Hl).
  unfold childFrame. rewrite <- (app_nil_r (field (Public child))).
  rewrite decodeKeypair_frame;
    [| lia | lia | lia | rewrite !len_app, !len_field, len_nil; lia].
  rewrite Hu, (proj2 (validCode_None _) Hc).
  destruct child; cbn in *. now subst.
Qed.

(** The loop over the child fields, on fields that each decode. *)
Lemma decodeChildren_fields (childBufs : list (list byte)) (kps : list Keypair) :
  Forall2 (fun cb kp => decodeKeypair cb = Ok kp) childBufs kps ->
  Forall (fun cb => len cb <= 65535) childBufs ->
  forall (rest : list byte) (acc : list Keypair),
    decodeChildren (length childBufs) (concat (field <$> childBufs) ++ rest) acc
    = Ok (acc ++ kps).
Proof.
  induction 1 as [|cb kp childBufs kps Hd _ IH]; intros Hfit rest acc.
  - cbn. now rewrite app_nil_r.
  - apply Forall_cons in Hfit as [Hcb Hfit].
    cbn [length decodeChildren fmap list_fmap concat].
    rewrite <- app_assoc, ReadUint16_field, Hd by lia.
    rewrite (IH Hfit). now rewrite <- app_assoc.
Qed.

Lemma decodeRecursivekey_frame (codeBuf master lenBuf rest : list byte) :
  len codeBuf <= 65535 -> len master <= 65535 -> len lenBuf <= 65535 ->
  len (field codeBuf ++ field master ++ field lenBuf ++ rest) <= 16777215 ->
  decodeRecursivekey (frame (field codeBuf ++ field master ++ field lenBuf ++ rest))
  = match UnpackCode codeBuf with
    | Err err => Err err
    | Ok numCode =>
        match UnpackLen lenBuf with
        | Err err => Err err
        | Ok childLen =>
            match decodeChildren (Z.to_nat childLen) rest [] with
            | Err err => Err err
            | Ok keypairs =>
                match validCode numCode with
                | Some err => Err err
                | None =>
                    Ok {| Recursivekey.Code := numCode;
                          Recursivekey.Name := Codes_at numCode;
                          Recursivekey.Master := master;
                          Recursivekey.MasterLength := len master;
                          Recursivekey.ChildrenNum := childLen;
                          Recursivekey.Children := keypairs |}
                end
            end
        end
    end.
Proof.
  intros Hc Hm Hl Hlen. unfold decodeRecursivekey.
  rewrite <- (app_nil_r (frame _)), ReadUint24_frame by lia.
  rewrite Empty_nil. cbn [negb].
  rewrite ReadUint16_field by lia.
  destruct (UnpackCode codeBuf) as [numCode|err]; [|reflexivity].
  rewrite ReadUint16_field by lia.
  rewrite ReadUint16_field by lia.
  reflexivity.
Qed.

(** ** Recursive round trip *)

Lemma recursiveBodyLen_children (master : list byte) (children : list Keypair) (code : Z) :
  recursiveBodyLen master children code <= 16777215 -> 0 <= len children < 2 ^ 63.
Proof.
  unfold recursiveBodyLen. pose proof (childFieldsLen_ge children).
  pose proof (UvarintSize_pos code). pose proof (UvarintSize_pos (len children)).
  pose proof (len_nonneg master). pose proof (len_nonneg children). lia.
Qed.

(** The frame [encodeRecursivekey] builds when everything fits. *)
Lemma encodeRecursivekey_frame (master : list byte) (children : list Keypair) (code : Z) :
  0 <= code < 2 ^ 64 -> len master <= 65535 -> Forall encodable children ->
  recursiveBodyLen master children code <= 16777215 ->
  encodeRecursivekey master children code
  = Return (frame (field (uvarint_bytes code) ++ field master
                   ++ field (uvarint_bytes (len children)) ++ childFields children)).
Proof.
  intros Hc Hm Hch Hlen.
  pose proof (recursiveBodyLen_children _ _ _ Hlen) as Hn.
  destruct (PackCode_uvarint_bytes code Hc) as (Hpc & _ & Hlc).
  destruct (PackLen_uvarint_bytes _ Hn) as (Hpl & _).
  destruct (PackCode_uvarint_bytes (len children)) as (_ & _ & Hll); [lia|].
  pose proof (UvarintSize_le_10 code Hc).
  pose proof (UvarintSize_le_10 (len children) ltac:(lia)).
  destruct (children_effect_encodable children Hch) as [Heff Hcl].
  rewrite (encodeRecursivekey_effect _ _ _ _ _ Hpc Hpl).
  unfold recursivekey_effect.
  rewrite !prefixed_2_fits, Heff by lia. cbn [then_effect].
  rewrite prefixed_3_fits.
  - cbn [run]. now rewrite <- !app_assoc.
  - rewrite !len_app, !len_field, Hcl, Hlc, Hll.
    unfold recursiveBodyLen in Hlen. lia.
Qed.

Lemma childFields_concat (children : list Keypair) :
  childFields children = concat (field <$> (childFrame <$> children)).
Proof. unfold childFields. now rewrite <- list_fmap_compose. Qed.

Lemma len_length {A} (l : list A) : Z.to_nat (len l) = length l.
Proof. unfold len. apply Nat2Z.id. Qed.

(** C2, as the code has it.  [RecursiveEncode] returns [ErrUnknownCode]
    whatever it is given; the frame builder behind it, [encodeRecursivekey],
    does round-trip: for a code of [Codes], a master key of at most 65535
    bytes, children that are valid keypairs whose frames fit a 16-bit field,
    and a frame body of at most 16777215 bytes, it returns a frame that
    [RecursiveDecode] turns back into the master key, the code and its name,
    the number of children and the children in order. *)
Theorem RecursiveDecode_encodeRecursivekey (master : list byte)
    (children : list Keypair) (code : Z) :
  is_Some (Codes !! code) ->
  len master <= 65535 ->
  Forall valid_child children ->
  recursiveBodyLen master children code <= 16777215 ->
  RecursiveEncode master children code = Return (Err ErrUnknownCode)
  /\ exists m, encodeRecursivekey master children code = Return m
       /\ RecursiveDecode m
          = Ok {| Recursivekey.Code := code;
                  Recursivekey.Name := Codes_at code;
                  Recursivekey.Master := master;
                  Recursivekey.MasterLength := len master;
                  Recursivekey.ChildrenNum := len children;
                  Recursivekey.Children := children |}.
Proof.
  intros Hcode Hm Hch Hlen.
  split; [apply RecursiveEncode_unknown|].
  pose proof (Codes_uint64 _ Hcode) as Hc.
  pose proof (recursiveBodyLen_children _ _ _ Hlen) as Hn.
  assert (Henc : Forall encodable children)
    by (eapply Forall_impl; [exact Hch|exact valid_child_encodable]).
  eexists. split; [apply encodeRecursivekey_frame; assumption|].
  destruct (PackCode_uvarint_bytes code Hc) as (_ & Huc & Hlc).
  destruct (PackLen_uvarint_bytes _ Hn) as (_ & Hul).
  destruct (PackCode_uvarint_bytes (len children)) as (_ & _ & Hll); [lia|].
  pose proof (UvarintSize_le_10 code Hc).
  pose proof (UvarintSize_le_10 (len children) ltac:(lia)).
  destruct (children_effect_encodable children Henc) as [_ Hcl].
  unfold RecursiveDecode. rewrite decodeRecursivekey_frame;
    [| lia | lia | lia
     | rewrite !len_app, !len_field, Hcl, Hlc, Hll;
       unfold recursiveBodyLen in Hlen; lia].
  rewrite Huc, Hul, len_length, childFields_concat.
  rewrite <- (length_fmap childFrame children).
  rewrite <- (app_nil_r (concat _)).
  rewrite (decodeChildren_fields (childFrame <$> children) children).
  - rewrite (proj2 (validCode_None code) Hcode). reflexivity.
  - apply Forall2_fmap_l, Forall_Forall2_diag.
    eapply Forall_impl; [exact Hch|exact decodeKeypair_childFrame].
  - apply Forall_fmap. eapply Forall_impl; [exact Henc|].
    intros child [Hcc Hcl']. change (len (childFrame child) <= 65535).
    rewrite len_childFrame by exact Hcc. exact Hcl'.
Qed.


(** [RecursiveEncode] refuses a code of the flat registry, and the empty
    value it returns with the error is no frame. *)
Lemma RecursiveEncode_rejects_registered_code :
  is_Some (Codes !! ED_25519)
  /\ RecursiveEncode [x6d] [] ED_25519 = Return (Err ErrUnknownCode)
  /\ RecursiveDecode [] = Err ErrInvalidMultikeypair.
Proof.
  split; [vm_compute; eauto|]. split; reflexivity.
Qed.

Lemma valid_child_a : valid_child child_a.
Proof.
  split; [vm_compute; eauto|]. split; [reflexivity|]. split; [reflexivity|].
  split; [reflexivity|]. vm_compute. discriminate.
Defined.

Lemma valid_child_b : valid_child child_b.
Proof.
  split; [vm_compute; eauto|]. split; [reflexivity|]. split; [reflexivity|].
  split; [reflexivity|]. vm_compute. discriminate.
Defined.

Lemma RecursiveDecode_encodeRecursivekey_witness :
  exists m, encodeRecursivekey [x6d] [child_a; child_b] DSA = Return m
    /\ RecursiveDecode m
       = Ok {| Recursivekey.Code := DSA;
               Recursivekey.Name := Codes_at DSA;
               Recursivekey.Master := [x6d];
               Recursivekey.MasterLength := len [x6d];
               Recursivekey.ChildrenNum := len [child_a; child_b];
               Recursivekey.Children := [child_a; child_b] |}.
Proof.
  refine (proj2 (RecursiveDecode_encodeRecursivekey [x6d] [child_a; child_b] DSA _ _ _ _)).
  - vm_compute. eauto.
  - vm_compute. discriminate.
  - constructor; [exact valid_child_a|constructor; [exact valid_child_b|constructor]].
  - vm_compute. discriminate.
Defined.


(** ** Malformed input *)








(** ** Oversize input *)


Lemma encodeRecursivekey_overflow (master : list byte) (children : list Keypair)
    (code : Z) :
  0 <= code < 2 ^ 64 ->
  len master <= 65535 -> len children < 2 ^ 63 -> Forall encodable children ->
  16777215 < recursiveBodyLen master children code ->
  encodeRecursivekey master children code
  = Panic (PanicError (PendingChildLength (recursiveBodyLen master children code) 3)).
Proof.
  intros Hc Hm Hn Hch Hlen.
  destruct (PackCode_uvarint_bytes code Hc) as (Hpc & _ & Hlc).
  pose proof (UvarintSize_le_10 code Hc) as Hsz.
  pose proof (len_nonneg children).
  destruct (PackLen_uvarint_bytes (len children)) as (Hpl & _); [lia|].
  destruct (PackCode_uvarint_bytes (len children)) as (_ & _ & Hll); [lia|].
  pose proof (UvarintSize_le_10 (len children) ltac:(lia)).
  destruct (children_effect_encodable children Hch) as [Heff Hcl].
  rewrite (encodeRecursivekey_effect _ _ _ _ _ Hpc Hpl).
  unfold recursivekey_effect.
  rewrite !prefixed_2_fits, Heff by lia. cbn [then_effect].
  assert (Hbody : len (((field (uvarint_bytes code) ++ field master)
                        ++ field (uvarint_bytes (len children)))
                       ++ childFields children)
                  = recursiveBodyLen master children code).
  { rewrite !len_app, !len_field, Hcl, Hlc, Hll. unfold recursiveBodyLen. lia. }
  rewrite prefixed_3_over by (rewrite Hbody; lia).
  rewrite Hbody. reflexivity.
Qed.




Lemma len_replicate {A} (n : Z) (x : A) : 0 <= n -> len (replicate (Z.to_nat n) x) = n.
Proof. intros. unfold len. rewrite length_replicate. lia. Qed.

Lemma childFieldsLen_replicate (n : nat) (child : Keypair) :
  childFieldsLen (replicate n child) = Z.of_nat n * (2 + childFrameLen child).
Proof.
  induction n as [|n IH]; [reflexivity|].
  cbn [replicate childFieldsLen foldr]. fold (childFieldsLen (replicate n child)).
  rewrite IH. lia.
Qed.

Example encodeRecursivekey_frame_overflow :
  encodeRecursivekey [x6d] (replicate 259 bigChild) BIP_32
  = Panic (PanicError (PendingChildLength 16838118 3)).
Proof.
  assert (Hcode : is_Some (Codes !! BIP_32)) by (vm_compute; eauto).
  assert (Hchild : childFrameLen bigChild = 65010).
  { unfold childFrameLen, bigChild. cbn [Code Private Public].
    rewrite len_replicate by lia. reflexivity. }
  assert (Hlen : recursiveBodyLen [x6d] (replicate 259 bigChild) BIP_32 = 16838118).
  { unfold recursiveBodyLen. rewrite childFieldsLen_replicate, Hchild.
    unfold len. rewrite length_replicate. reflexivity. }
  rewrite <- Hlen. apply encodeRecursivekey_overflow.
  - vm_compute. split; [discriminate|reflexivity].
  - vm_compute. discriminate.
  - unfold len. rewrite length_replicate. reflexivity.
  - apply Forall_replicate. split; [vm_compute; split; [discriminate|reflexivity]|].
    rewrite Hchild. lia.
  - rewrite Hlen. lia.
Qed.

(** ** More on varints *)

(** X1.  For every [uint64] code [PackCode] returns (it does not run off the
    buffer it sized with [UvarintSize]), the buffer holds between one and ten
    bytes, and [UnpackCode] gives the code back. *)
Theorem UnpackCode_PackCode (code : Z) :
  0 <= code < 2 ^ 64 ->
  exists codeBuf, PackCode code = Return codeBuf
                  /\ UnpackCode codeBuf = Ok code
                  /\ len codeBuf = UvarintSize code
                  /\ 1 <= len codeBuf <= 10.
Proof.
  intros Hc. destruct (PackCode_UnpackCode code Hc) as (buf & Hp & Hu & Hl).
  exists buf. repeat split; try assumption; rewrite Hl.
  - apply UvarintSize_pos.
  - now apply UvarintSize_le_10.
Qed.

Lemma UnpackCode_PackCode_witness :
  0 <= 2 ^ 64 - 1 < 2 ^ 64
  /\ exists codeBuf, PackCode (2 ^ 64 - 1) = Return codeBuf
                  /\ UnpackCode codeBuf = Ok (2 ^ 64 - 1)
                  /\ len codeBuf = UvarintSize (2 ^ 64 - 1)
                  /\ 1 <= len codeBuf <= 10.
Proof.
  assert (H : 0 <= 2 ^ 64 - 1 < 2 ^ 64) by (vm_compute; split; [discriminate|reflexivity]).
  exact (conj H (UnpackCode_PackCode (2 ^ 64 - 1) H)).
Defined.

(** X2.  For every length a Go [int] can hold, [PackLen] returns and
    [UnpackLen] gives the length back. *)
Theorem UnpackLen_PackLen (n : Z) :
  0 <= n < 2 ^ 63 ->
  exists lenBuf, PackLen n = Return lenBuf
                 /\ UnpackLen lenBuf = Ok n
                 /\ 1 <= len lenBuf <= 9.
Proof.
  intros Hn. destruct (PackLen_UnpackLen n Hn) as (buf & Hp & Hu & Hl).
  exists buf. split; [exact Hp|]. split; [exact Hu|]. rewrite Hl.
  split; [apply UvarintSize_pos|].
  unfold UvarintSize. cbv zeta.
  assert (0 <= Len64 n <= 63).
  { unfold Len64. destruct (Z.eqb_spec n 0); [lia|].
    assert (Z.log2 n < 63) by (apply Z.log2_lt_pow2; lia).
    pose proof (Z.log2_nonneg n). lia. }
  destruct (Z.ltb_spec 0 (Len64 n mod 7)); destruct (Z.eqb_spec (Len64 n / 7) 0);
    cbn [orb]; Z.div_mod_to_equations; lia.
Qed.

Lemma UnpackLen_PackLen_witness :
  0 <= 300 < 2 ^ 63
  /\ exists lenBuf, PackLen 300 = Return lenBuf
                 /\ UnpackLen lenBuf = Ok 300
                 /\ 1 <= len lenBuf <= 9.
Proof.
  assert (H : 0 <= 300 < 2 ^ 63) by (vm_compute; split; [discriminate|reflexivity]).
  exact (conj H (UnpackLen_PackLen 300 H)).
Defined.

Lemma PutUvarint_from_app (cells : list byte) :
  forall (x : Z) (buf : list byte) (n : Z) (rest : list byte),
    PutUvarint_from cells x = Return (buf, n) ->
    PutUvarint_from (cells ++ rest) x = Return (buf ++ rest, n).
Proof.
  induction cells as [|c cells IH]; intros x buf n rest H; [discriminate|].
  cbn [app PutUvarint_from] in *.
  destruct (0x80 <=? x).
  - destruct (PutUvarint_from cells (Z.shiftr x 7)) as [[r1 r2]|] eqn:Hrec;
      [|discriminate].
    rewrite (IH _ _ _ rest Hrec). cbn in *. now injection H as <- <-.
  - now injection H as <- <-.
Qed.

(** X3.  [UnpackCode] stops at the byte that ends the varint: whatever
    follows the bytes [PackCode] wrote is not looked at. *)
Theorem UnpackCode_ignores_tail (code : Z) (codeBuf rest : list byte) :
  0 <= code < 2 ^ 64 ->
  PackCode code = Return codeBuf ->
  UnpackCode (codeBuf ++ rest) = Ok code.
Proof.
  intros Hc Hp. unfold PackCode, PutUvarint in Hp. cbv zeta in Hp.
  destruct (PutUvarint_from (make (UvarintSize code)) code) as [[buf n]|] eqn:Hput;
    [|discriminate].
  cbn in Hp. injection Hp as <-.
  pose proof (UvarintSize_pos code) as Hpos.
  destruct (PutUvarint_from_fits (make (UvarintSize code)) code) as (buf' & Hput' & _);
    [lia | rewrite make_len by lia; lia |].
  rewrite Hput in Hput'. injection Hput' as <- ->.
  apply (PutUvarint_from_app _ _ _ _ rest) in Hput.
  unfold UnpackCode, Uvarint.
  change (Uvarint_loop (buf ++ rest) 0 0 0) with (Uvarint_loop (buf ++ rest) 0 0 (7 * 0)).
  rewrite (Uvarint_loop_PutUvarint _ _ _ _ 0 0 Hput) by (cbn; lia).
  destruct (Z.eqb_spec (0 + UvarintSize code) 0); [lia|].
  destruct (Z.ltb_spec (0 + UvarintSize code) 0); [lia|].
  f_equal. cbn. lia.
Qed.

Lemma UnpackCode_ignores_tail_witness :
  0 <= 300 < 2 ^ 64
  /\ PackCode 300 = Return [xac; x02]
  /\ UnpackCode ([xac; x02] ++ [xff; xff]) = Ok 300.
Proof.
  assert (H : 0 <= 300 < 2 ^ 64) by (vm_compute; split; [discriminate|reflexivity]).
  assert (H' : PackCode 300 = Return [xac; x02]) by (vm_compute; reflexivity).
  exact (conj H (conj H' (UnpackCode_ignores_tail 300 [xac; x02] [xff; xff] H H'))).
Defined.

(** X4.  The tenth byte of a varint may only carry the top bit of the
    value: after nine continuation bytes a closing byte above 1 fails with
    [ErrVarintTooLong], a closing byte 0 or 1 is accepted. *)
Theorem UnpackCode_tenth_byte (pre : list byte) (b : byte) (rest : list byte) :
  Forall continues pre -> len pre = 9 -> byte_to_Z b < 0x80 ->
  (1 < byte_to_Z b -> UnpackCode (pre ++ b :: rest) = Err ErrVarintTooLong)
  /\ (byte_to_Z b <= 1 -> exists code, UnpackCode (pre ++ b :: rest) = Ok code).
Proof.
  intros Hc Hlen Hb. unfold UnpackCode, Uvarint.
  destruct (Uvarint_loop_continues pre (b :: rest) 0 0 0 Hc) as (x' & s' & ->);
    [lia | unfold MaxVarintLen64; lia |].
  rewrite Hlen. cbn [Uvarint_loop]. unfold MaxVarintLen64.
  change (0 + 9 =? 10) with false. change (0 + 9 =? 10 - 1) with true.
  destruct (Z.ltb_spec (byte_to_Z b) 0x80); [|lia]. cbn [andb].
  split; intros H1.
  - destruct (Z.ltb_spec 1 (byte_to_Z b)); [reflexivity|lia].
  - destruct (Z.ltb_spec 1 (byte_to_Z b)); [lia|]. eexists. reflexivity.
Qed.

Lemma UnpackCode_tenth_byte_witness :
  Forall continues (replicate 9 xff) /\ len (replicate 9 xff) = 9
  /\ UnpackCode (replicate 9 xff ++ [x02]) = Err ErrVarintTooLong
  /\ UnpackCode (replicate 9 xff ++ [x01]) = Ok (2 ^ 64 - 1).
Proof.
  assert (H1 : Forall continues (replicate 9 xff))
    by (repeat constructor; vm_compute; discriminate).
  assert (H2 : len (replicate 9 xff) = 9) by reflexivity.
  refine (conj H1 (conj H2 (conj _ _))).
  - refine (proj1 (UnpackCode_tenth_byte (replicate 9 xff) x02 [] H1 H2 _) _);
      vm_compute; reflexivity.
  - vm_compute. reflexivity.
Defined.

(** ** More on the flat codec *)

Lemma UnpackCode_nil : UnpackCode [] = Err ErrVarintBufferShort.
Proof. reflexivity. Qed.

(** Everything [decodeKeypair] has established when it returns a keypair. *)
Lemma decodeKeypair_Ok (buf : list byte) (kp : Keypair) :
  decodeKeypair buf = Ok kp ->
  exists codeBuf extra,
    buf = frame (field codeBuf ++ field (Private kp) ++ field (Public kp) ++ extra)
    /\ len (field codeBuf ++ field (Private kp) ++ field (Public kp) ++ extra) < 2 ^ 24
    /\ len codeBuf < 2 ^ 16
    /\ UnpackCode codeBuf = Ok (Code kp)
    /\ is_Some (Codes !! Code kp)
    /\ Name kp = Codes_at (Code kp)
    /\ PrivateLength kp = len (Private kp) /\ len (Private kp) < 2 ^ 16
    /\ PublicLength kp = len (Public kp) /\ len (Public kp) < 2 ^ 16.
Proof.
  unfold decodeKeypair.
  destruct (ReadUint24LengthPrefixed buf) as [[values input]|] eqn:H24; [|discriminate].
  apply ReadUint24_Some in H24 as [-> Hv].
  destruct (Empty input) eqn:HE; cbn [negb]; [|discriminate].
  apply Empty_true in HE as ->. rewrite app_nil_r.
  destruct (ReadUint16LengthPrefixed values) as [[codeBuf values1]|] eqn:H1; [|discriminate].
  apply ReadUint16_Some in H1 as [-> Hc].
  destruct (UnpackCode codeBuf) as [numCode|err] eqn:HU; [|discriminate].
  destruct (ReadUint16LengthPrefixed values1) as [[private values2]|] eqn:H2; [|discriminate].
  apply ReadUint16_Some in H2 as [-> Hp].
  destruct (ReadUint16LengthPrefixed values2) as [[public values3]|] eqn:H3; [|discriminate].
  apply ReadUint16_Some in H3 as [-> Hq].
  destruct (validCode numCode) as [err|] eqn:HV; [discriminate|].
  apply validCode_None in HV. intros [= <-]. cbn.
  exists codeBuf, values3. repeat split; assumption.
Qed.

(** X5.  What holds of every keypair [Decode] returns: its code is
    registered, its name is the registry's, its length fields are the
    lengths of its keys, neither key exceeds 65535 bytes, and the buffer it
    came from has at least 10 and at most 16777218 bytes. *)
Theorem Decode_Ok_invariant (m : list byte) (kp : Keypair) :
  Decode m = Ok kp ->
  is_Some (Codes !! Code kp)
  /\ Name kp = Codes_at (Code kp)
  /\ PrivateLength kp = len (Private kp) /\ len (Private kp) <= 65535
  /\ PublicLength kp = len (Public kp) /\ len (Public kp) <= 65535
  /\ 10 <= len m <= 16777218.
Proof.
  intros H. apply decodeKeypair_Ok in H
    as (codeBuf & extra & -> & Hlen & Hc & HU & HC & HN & HP & HPl & HQ & HQl).
  repeat split; try assumption; try lia.
  - assert (1 <= len codeBuf).
    { destruct codeBuf; [rewrite UnpackCode_nil in HU; discriminate|].
      rewrite len_cons. pose proof (len_nonneg codeBuf). lia. }
    rewrite len_frame, !len_app, !len_field.
    pose proof (len_nonneg (Private kp)). pose proof (len_nonneg (Public kp)).
    pose proof (len_nonneg extra). lia.
  - rewrite len_frame. lia.
Qed.

Lemma Decode_Ok_invariant_witness :
  Decode (frame (field [x11] ++ field [x61] ++ field [x62]))
  = Ok (mkKeypair ED_25519 "ed25519" [x62] 1 [x61] 1)
  /\ 10 <= len (frame (field [x11] ++ field [x61] ++ field [x62])) <= 16777218.
Proof.
  assert (H : Decode (frame (field [x11] ++ field [x61] ++ field [x62]))
              = Ok (mkKeypair ED_25519 "ed25519" [x62] 1 [x61] 1)) by reflexivity.
  refine (conj H _).
  exact (proj2 (proj2 (proj2 (proj2 (proj2 (proj2 (Decode_Ok_invariant _ _ H))))))).
Defined.

(** X7.  The method [Keypair.Encode] encodes the code and the two keys
    only: whatever the struct's [Name] and length fields say, decoding the
    result gives the registry's name and the actual lengths.  With an
    unregistered code it returns [ErrUnknownCode]. *)
Theorem Keypair_Encode_Decode (k : Keypair) :
  len (Private k) <= 65535 -> len (Public k) <= 65535 ->
  (is_Some (Codes !! Code k) ->
   exists m, Keypair_Encode k = Return (Ok m)
             /\ Decode m = Ok {| Code := Code k; Name := Codes_at (Code k);
                                 Private := Private k; PrivateLength := len (Private k);
                                 Public := Public k; PublicLength := len (Public k) |})
  /\ (Codes !! Code k = None -> Keypair_Encode k = Return (Err ErrUnknownCode)).
Proof.
  intros Hp Hq. split.
  - intros HC. destruct (Encode_Decode_frame _ _ _ HC Hp Hq) as [HE HD].
    eexists. split; [|exact HD].
    unfold Keypair_Encode. now rewrite (proj2 (validCode_None _) HC).
  - intros HC. unfold Keypair_Encode.
    destruct (validCode (Code k)) as [err|] eqn:HV.
    + apply validCode_Some in HV as [_ ->]. reflexivity.
    + apply validCode_None in HV as [v Hv]. congruence.
Qed.

Lemma Keypair_Encode_Decode_witness :
  len [x61] <= 65535 /\ len [x62; x63] <= 65535
  /\ is_Some (Codes !! DSA)
  /\ exists m, Keypair_Encode (mkKeypair DSA "stale" [x62; x63] 77 [x61] (-1))
               = Return (Ok m)
               /\ Decode m = Ok (mkKeypair DSA "dsa" [x62; x63] 2 [x61] 1).
Proof.
  assert (H1 : len [x61] <= 65535) by (vm_compute; discriminate).
  assert (H2 : len [x62; x63] <= 65535) by (vm_compute; discriminate).
  assert (H3 : is_Some (Codes !! DSA)) by (vm_compute; eauto).
  exact (conj H1 (conj H2 (conj H3
    (proj1 (Keypair_Encode_Decode (mkKeypair DSA "stale" [x62; x63] 77 [x61] (-1)) H1 H2)
       H3)))).
Defined.

(** When [Encode] returns a frame, the code was registered, both keys fit
    their fields, and the frame is the three fields under the outer prefix. *)
Lemma Encode_Ok (private public : list byte) (code : Z) (m : list byte) :
  Encode private public code = Return (Ok m) ->
  is_Some (Codes !! code)
  /\ len private <= 65535 /\ len public <= 65535
  /\ m = frame (field (uvarint_bytes code) ++ field private ++ field public).
Proof.
  unfold Encode. destruct (validCode code) as [err|] eqn:HV; [discriminate|].
  apply validCode_None in HV. intros H.
  pose proof (Codes_uint64 _ HV) as Hc.
  destruct (PackCode_uvarint_bytes code Hc) as (Hpc & _ & Hlc).
  pose proof (UvarintSize_le_10 code Hc).
  rewrite (encodeKeypair_effect _ _ _ _ Hpc) in H. unfold keypair_effect in H.
  rewrite (prefixed_2_fits (uvarint_bytes code)) in H by lia.
  destruct (Z.le_gt_cases (2 ^ 16) (len private)) as [Hp|Hp].
  { rewrite (prefixed_2_over private Hp) in H. discriminate. }
  rewrite (prefixed_2_fits private Hp) in H.
  destruct (Z.le_gt_cases (2 ^ 16) (len public)) as [Hq|Hq].
  { rewrite (prefixed_2_over public Hq) in H. discriminate. }
  rewrite (prefixed_2_fits public Hq) in H. cbn [then_effect] in H.
  rewrite prefixed_3_fits in H by (rewrite !len_app, !len_field; lia).
  cbn in H. injection H as <-.
  split; [exact HV|]. split; [lia|]. split; [lia|]. now rewrite <- app_assoc.
Qed.

(** X8.  [Encode] is injective and its frame has ten bytes of overhead: two
    calls that return the same frame were given the same keys and code, and
    the frame is 10 bytes longer than the two keys together. *)
Theorem Encode_injective (private public private' public' : list byte)
    (code code' : Z) (m : list byte) :
  Encode private public code = Return (Ok m) ->
  Encode private' public' code' = Return (Ok m) ->
  private = private' /\ public = public' /\ code = code'
  /\ len m = 10 + len private + len public.
Proof.
  intros H H'.
  destruct (Encode_Ok _ _ _ _ H) as (HC & Hp & Hq & Hm).
  destruct (Encode_Ok _ _ _ _ H') as (HC' & Hp' & Hq' & Hm').
  destruct (Encode_Decode_frame _ _ _ HC Hp Hq) as [_ HD].
  destruct (Encode_Decode_frame _ _ _ HC' Hp' Hq') as [_ HD'].
  rewrite <- Hm in HD. rewrite <- Hm' in HD'. rewrite HD in HD'.
  injection HD' as -> _ -> _ -> _.
  repeat split.
  destruct (PackCode_uvarint_bytes code' (Codes_uint64 _ HC')) as (_ & _ & Hl).
  rewrite Hm, len_frame, !len_app, !len_field, Hl.
  assert (UvarintSize code' = 1); [|lia].
  apply UvarintSize_small. apply Codes_registered in HC'.
  unfold IDENTITY, ED_25519, BIP_32, DSA, RSA in HC'. lia.
Qed.

Lemma Encode_injective_witness :
  Encode [x61] [x62] DSA = Return (Ok [x00; x00; x09; x00; x01; x13; x00; x01; x61; x00; x01; x62])
  /\ len [x00; x00; x09; x00; x01; x13; x00; x01; x61; x00; x01; x62]
     = 10 + len [x61] + len [x62].
Proof.
  assert (H : Encode [x61] [x62] DSA
              = Return (Ok [x00; x00; x09; x00; x01; x13; x00; x01; x61; x00; x01; x62]))
    by (vm_compute; reflexivity).
  refine (conj H _).
  exact (proj2 (proj2 (proj2 (Encode_injective _ _ _ _ _ _ _ H H)))).
Defined.

(** ** The base-58 entry points *)

(** Everything [decodeRecursivekey] has read when it returns a key. *)
Lemma decodeRecursivekey_Ok (buf : list byte) (rk : Recursivekey.t) :
  decodeRecursivekey buf = Ok rk ->
  exists codeBuf lenBuf rest,
    buf = frame (field codeBuf ++ field (Recursivekey.Master rk) ++ field lenBuf ++ rest)
    /\ len (field codeBuf ++ field (Recursivekey.Master rk) ++ field lenBuf ++ rest)
       < 2 ^ 24
    /\ len codeBuf < 2 ^ 16 /\ len (Recursivekey.Master rk) < 2 ^ 16
    /\ len lenBuf < 2 ^ 16
    /\ UnpackCode codeBuf = Ok (Recursivekey.Code rk)
    /\ UnpackLen lenBuf = Ok (Recursivekey.ChildrenNum rk)
    /\ decodeChildren (Z.to_nat (Recursivekey.ChildrenNum rk)) rest []
       = Ok (Recursivekey.Children rk)
    /\ is_Some (Codes !! Recursivekey.Code rk)
    /\ Recursivekey.Name rk = Codes_at (Recursivekey.Code rk)
    /\ Recursivekey.MasterLength rk = len (Recursivekey.Master rk).
Proof.
  unfold decodeRecursivekey.
  destruct (ReadUint24LengthPrefixed buf) as [[values input]|] eqn:H24; [|discriminate].
  apply ReadUint24_Some in H24 as [-> Hv].
  destruct (Empty input) eqn:HE; cbn [negb]; [|discriminate].
  apply Empty_true in HE as ->. rewrite app_nil_r.
  destruct (ReadUint16LengthPrefixed values) as [[codeBuf values1]|] eqn:H1; [|discriminate].
  apply ReadUint16_Some in H1 as [-> Hc].
  destruct (UnpackCode codeBuf) as [numCode|err] eqn:HU; [|discriminate].
  destruct (ReadUint16LengthPrefixed values1) as [[master values2]|] eqn:H2; [|discriminate].
  apply ReadUint16_Some in H2 as [-> Hm].
  destruct (ReadUint16LengthPrefixed values2) as [[lenBuf values3]|] eqn:H3; [|discriminate].
  apply ReadUint16_Some in H3 as [-> Hl].
  destruct (UnpackLen lenBuf) as [childLen|err] eqn:HL; [|discriminate].
  destruct (decodeChildren (Z.to_nat childLen) values3 []) as [keypairs|err] eqn:HD;
    [|discriminate].
  destruct (validCode numCode) as [err|] eqn:HV; [discriminate|].
  apply validCode_None in HV. intros [= <-]. cbn.
  exists codeBuf, lenBuf, values3. repeat split; assumption.
Qed.

(** X9.  Every buffer that decodes as a recursive key also decodes as a flat
    keypair: same code and name, the master key as private key, and the
    children-count field as public key. *)
Theorem decodeRecursivekey_decodeKeypair (buf : list byte) (rk : Recursivekey.t) :
  decodeRecursivekey buf = Ok rk ->
  exists kp, decodeKeypair buf = Ok kp
             /\ Code kp = Recursivekey.Code rk
             /\ Name kp = Recursivekey.Name rk
             /\ Private kp = Recursivekey.Master rk
             /\ PrivateLength kp = Recursivekey.MasterLength rk
             /\ UnpackLen (Public kp) = Ok (Recursivekey.ChildrenNum rk).
Proof.
  intros H. apply decodeRecursivekey_Ok in H
    as (codeBuf & lenBuf & rest & -> & Hlen & Hc & Hm & Hl & HU & HL & _ & HC & HN & HM).
  rewrite decodeKeypair_frame by (assumption || lia).
  rewrite HU, (proj2 (validCode_None _) HC).
  eexists. split; [reflexivity|]. cbn. auto.
Qed.

Lemma decodeRecursivekey_decodeKeypair_witness :
  decodeRecursivekey (frame (field [x12] ++ field [x6d] ++ field [x01]
                             ++ field (childFrame child_a)))
  = Ok (Recursivekey.mk BIP_32 "bip32" [x6d] 1 1 [child_a])
  /\ decodeKeypair (frame (field [x12] ++ field [x6d] ++ field [x01]
                           ++ field (childFrame child_a)))
     = Ok (mkKeypair BIP_32 "bip32" [x01] 1 [x6d] 1).
Proof.
  assert (H : decodeRecursivekey (frame (field [x12] ++ field [x6d] ++ field [x01]
                                         ++ field (childFrame child_a)))
              = Ok (Recursivekey.mk BIP_32 "bip32" [x6d] 1 1 [child_a])) by reflexivity.
  refine (conj H _).
  destruct (decodeRecursivekey_decodeKeypair _ _ H) as (kp & Hkp & _).
  rewrite Hkp. vm_compute in Hkp. injection Hkp as <-. reflexivity.
Defined.

Lemma decodeRecursivekey_passes_decodeKeypair (buf : list byte) (rk : Recursivekey.t) :
  decodeRecursivekey buf = Ok rk -> exists kp, decodeKeypair buf = Ok kp.
Proof.
  intros H. apply decodeRecursivekey_Ok in H
    as (codeBuf & lenBuf & rest & -> & Hlen & Hc & Hm & Hl & HU & _ & _ & HC & _).
  rewrite decodeKeypair_frame by (assumption || lia).
  rewrite HU, (proj2 (validCode_None _) HC). eauto.
Qed.

Section Base58_properties.
Variable b58_Encode : list byte -> string.
Variable b58_Decode : string -> option (list byte).

(** X10.  [KeypairFromB58] decodes the same bytes three times and is, in
    the end, [Decode] after [b58.Decode]; [MultikeypairFromB58] returns the
    decoded bytes themselves when they decode.  Whatever error [b58.Decode]
    reports becomes [ErrInvalidMultikeypair]. *)
Theorem KeypairFromB58_Decode (s : string) :
  KeypairFromB58 b58_Decode s
  = match b58_Decode s with
    | None => Err ErrInvalidMultikeypair
    | Some b => Decode b
    end
  /\ MultikeypairFromB58 b58_Decode s
     = match b58_Decode s with
       | None => Err ErrInvalidMultikeypair
       | Some b => match Decode b with Ok _ => Ok b | Err err => Err err end
       end.
Proof.
  unfold KeypairFromB58, MultikeypairFromB58, castKeypair, Multikeypair_Decode, Decode.
  destruct (b58_Decode s) as [b|]; [|split; reflexivity].
  destruct (decodeKeypair b) as [kp|err] eqn:H; [|split; reflexivity].
  rewrite H. split; reflexivity.
Qed.

(** X11.  [RecursivekeyFromB58] succeeds exactly when the text decodes to
    bytes that [RecursiveDecode] accepts, and returns that key: the flat
    keypair test it runs first never rejects such bytes.  When that test
    fails, its error is the one returned. *)
Theorem RecursivekeyFromB58_Ok (s : string) (rk : Recursivekey.t) :
  (RecursivekeyFromB58 b58_Decode s = Ok rk
   <-> exists b, b58_Decode s = Some b /\ RecursiveDecode b = Ok rk)
  /\ (forall b err, b58_Decode s = Some b -> decodeKeypair b = Err err ->
        RecursivekeyFromB58 b58_Decode s = Err err).
Proof.
  unfold RecursivekeyFromB58, MultirecursiveFromB58, castRecursivekey,
    Multirecursivekey_Decode, RecursiveDecode.
  split; [split|].
  - destruct (b58_Decode s) as [b|]; [|discriminate].
    destruct (decodeKeypair b) as [kp|err]; [|discriminate].
    destruct (decodeRecursivekey b) as [rk'|err] eqn:H; [|discriminate].
    rewrite H. intros [= <-]. eauto.
  - intros (b & -> & H).
    destruct (decodeRecursivekey_passes_decodeKeypair _ _ H) as (kp & ->).
    now rewrite H, H.
  - intros b err -> ->. reflexivity.
Qed.

Hypothesis b58_round_trip : forall b, b58_Decode (b58_Encode b) = Some b.

(** X12.  Text round trip of a keypair frame: for every frame [Decode]
    accepts, [MultikeypairFromB58] of its base-58 string is the frame and
    [KeypairFromB58] of it is the keypair. *)
Theorem KeypairFromB58_B58String (m : list byte) (kp : Keypair) :
  Decode m = Ok kp ->
  MultikeypairFromB58 b58_Decode (B58String b58_Encode m) = Ok m
  /\ KeypairFromB58 b58_Decode (B58String b58_Encode m) = Ok kp.
Proof.
  intros H. unfold KeypairFromB58, MultikeypairFromB58, castKeypair,
    Multikeypair_Decode, B58String.
  rewrite b58_round_trip. unfold Decode in *. rewrite H, H. auto.
Qed.

(** X13.  Text round trip of a recursive frame: for every frame
    [RecursiveDecode] accepts, [MultirecursiveFromB58] of its base-58 string
    is the frame and [RecursivekeyFromB58] of it is the key. *)
Theorem RecursivekeyFromB58_B58String (m : list byte) (rk : Recursivekey.t) :
  RecursiveDecode m = Ok rk ->
  MultirecursiveFromB58 b58_Decode (B58String b58_Encode m) = Ok m
  /\ RecursivekeyFromB58 b58_Decode (B58String b58_Encode m) = Ok rk.
Proof.
  intros H. unfold RecursivekeyFromB58, MultirecursiveFromB58, castRecursivekey,
    Multirecursivekey_Decode, B58String.
  rewrite b58_round_trip. unfold RecursiveDecode in *.
  destruct (decodeRecursivekey_passes_decodeKeypair _ _ H) as [kp ->].
  rewrite H, H. auto.
Qed.

End Base58_properties.

Lemma plain_round_trip (b : list byte) : plain_Decode (plain_Encode b) = Some b.
Proof.
  unfold plain_Decode, plain_Encode.
  now rewrite Stdlib.Strings.String.list_byte_of_string_of_list_byte.
Qed.

Lemma RecursivekeyFromB58_Ok_witness :
  plain_Decode (plain_Encode [x00; x00; x09; x00; x01; x12; x00; x01; x6d; x00; x01; x00])
  = Some [x00; x00; x09; x00; x01; x12; x00; x01; x6d; x00; x01; x00]
  /\ RecursiveDecode [x00; x00; x09; x00; x01; x12; x00; x01; x6d; x00; x01; x00]
     = Ok (Recursivekey.mk BIP_32 "bip32" [x6d] 1 0 [])
  /\ RecursivekeyFromB58 plain_Decode
       (plain_Encode [x00; x00; x09; x00; x01; x12; x00; x01; x6d; x00; x01; x00])
     = Ok (Recursivekey.mk BIP_32 "bip32" [x6d] 1 0 []).
Proof.
  pose proof (plain_round_trip [x00; x00; x09; x00; x01; x12; x00; x01; x6d; x00; x01; x00])
    as H1.
  assert (H2 : RecursiveDecode [x00; x00; x09; x00; x01; x12; x00; x01; x6d; x00; x01; x00]
               = Ok (Recursivekey.mk BIP_32 "bip32" [x6d] 1 0 [])) by reflexivity.
  refine (conj H1 (conj H2 _)).
  apply (proj1 (RecursivekeyFromB58_Ok plain_Decode _ _)).
  eexists. exact (conj H1 H2).
Defined.

Lemma KeypairFromB58_B58String_witness :
  (forall b, plain_Decode (plain_Encode b) = Some b)
  /\ Decode [x00; x00; x09; x00; x01; x13; x00; x01; x61; x00; x01; x62]
     = Ok (mkKeypair DSA "dsa" [x62] 1 [x61] 1)
  /\ KeypairFromB58 plain_Decode
       (B58String plain_Encode [x00; x00; x09; x00; x01; x13; x00; x01; x61; x00; x01; x62])
     = Ok (mkKeypair DSA "dsa" [x62] 1 [x61] 1).
Proof.
  assert (H : Decode [x00; x00; x09; x00; x01; x13; x00; x01; x61; x00; x01; x62]
              = Ok (mkKeypair DSA "dsa" [x62] 1 [x61] 1)) by reflexivity.
  exact (conj plain_round_trip (conj H
    (proj2 (KeypairFromB58_B58String plain_Encode plain_Decode plain_round_trip _ _ H)))).
Defined.

Lemma RecursivekeyFromB58_B58String_witness :
  (forall b, plain_Decode (plain_Encode b) = Some b)
  /\ RecursiveDecode [x00; x00; x09; x00; x01; x12; x00; x01; x6d; x00; x01; x00]
     = Ok (Recursivekey.mk BIP_32 "bip32" [x6d] 1 0 [])
  /\ RecursivekeyFromB58 plain_Decode
       (B58String plain_Encode [x00; x00; x09; x00; x01; x12; x00; x01; x6d; x00; x01; x00])
     = Ok (Recursivekey.mk BIP_32 "bip32" [x6d] 1 0 []).
Proof.
  assert (H : RecursiveDecode [x00; x00; x09; x00; x01; x12; x00; x01; x6d; x00; x01; x00]
              = Ok (Recursivekey.mk BIP_32 "bip32" [x6d] 1 0 [])) by reflexivity.
  exact (conj plain_round_trip (conj H
    (proj2 (RecursivekeyFromB58_B58String plain_Encode plain_Decode plain_round_trip
              _ _ H)))).
Defined.

(** ** More on the recursive codec *)

(** X14.  The two other ways into the recursive encoder end like
    [RecursiveEncode]: [EncodeRecursiveName] looks the name up in the flat
    [Names] and has the code refused by the empty recursive registry, for
    registered names too, and the method on a [Recursivekey] is refused by
    its own check. *)
Theorem EncodeRecursiveName_UnknownCode (master : list byte) (children : list Keypair)
    (name : string) (k : Recursivekey.t) :
  EncodeRecursiveName master children name = Return (Err ErrUnknownCode)
  /\ Recursivekey_RecursiveEncode k = Return (Err ErrUnknownCode).
Proof.
  split.
  - unfold EncodeRecursiveName. apply RecursiveEncode_unknown.
  - unfold Recursivekey_RecursiveEncode. now rewrite validRecursiveCode_unknown.
Qed.

(** What the loop over the children returns: the keypairs it was given, then
    one decoded keypair per iteration. *)
Lemma decodeChildren_Ok (n : nat) :
  forall (values : list byte) (acc kps : list Keypair),
    decodeChildren n values acc = Ok kps ->
    exists new, kps = acc ++ new /\ length new = n
                /\ Forall (fun kp => exists cb, decodeKeypair cb = Ok kp) new.
Proof.
  induction n as [|n IH]; intros values acc kps H.
  - cbn in H. injection H as <-. exists []. rewrite app_nil_r. auto.
  - cbn [decodeChildren] in H.
    destruct (ReadUint16LengthPrefixed values) as [[cb values']|]; [|discriminate].
    destruct (decodeKeypair cb) as [kp|err] eqn:Hkp; [|discriminate].
    apply IH in H as (new & -> & Hlen & Hall).
    exists (kp :: new). rewrite <- app_assoc. cbn [length].
    split; [reflexivity|]. split; [lia|]. constructor; eauto.
Qed.

(** X15.  What holds of every key [RecursiveDecode] returns: its code is
    registered and its name the registry's; [MasterLength] is the length of
    the master key, at most 65535; every child satisfies the invariant of
    decoded keypairs; and [ChildrenNum] is the number of children, except
    that a negative [ChildrenNum] comes with no children at all. *)
Theorem RecursiveDecode_Ok_invariant (m : list byte) (rk : Recursivekey.t) :
  RecursiveDecode m = Ok rk ->
  is_Some (Codes !! Recursivekey.Code rk)
  /\ Recursivekey.Name rk = Codes_at (Recursivekey.Code rk)
  /\ Recursivekey.MasterLength rk = len (Recursivekey.Master rk)
  /\ len (Recursivekey.Master rk) <= 65535
  /\ len (Recursivekey.Children rk) = Z.max 0 (Recursivekey.ChildrenNum rk)
  /\ Forall (fun kp => is_Some (Codes !! Code kp)
                       /\ Name kp = Codes_at (Code kp)
                       /\ PrivateLength kp = len (Private kp)
                       /\ PublicLength kp = len (Public kp))
       (Recursivekey.Children rk).
Proof.
  intros H. apply decodeRecursivekey_Ok in H
    as (codeBuf & lenBuf & rest & _ & _ & _ & Hm & _ & _ & HL & HD & HC & HN & HM).
  apply decodeChildren_Ok in HD as (new & Hk & Hlen & Hall). cbn [app] in Hk.
  rewrite Hk. repeat split; try assumption; try lia.
  - unfold len. rewrite Hlen. lia.
  - eapply Forall_impl; [exact Hall|]. intros kp [cb Hcb].
    apply decodeKeypair_Ok in Hcb
      as (? & ? & _ & _ & _ & _ & ? & ? & ? & _ & ? & _). auto.
Qed.

Lemma RecursiveDecode_Ok_invariant_witness :
  RecursiveDecode (frame (field [x12] ++ field [x6d] ++ field [x01]
                          ++ field (childFrame child_a)))
  = Ok (Recursivekey.mk BIP_32 "bip32" [x6d] 1 1 [child_a])
  /\ len [child_a] = Z.max 0 1.
Proof.
  assert (H : RecursiveDecode (frame (field [x12] ++ field [x6d] ++ field [x01]
                                      ++ field (childFrame child_a)))
              = Ok (Recursivekey.mk BIP_32 "bip32" [x6d] 1 1 [child_a])) by reflexivity.
  refine (conj H _).
  exact (proj1 (proj2 (proj2 (proj2 (proj2 (RecursiveDecode_Ok_invariant _ _ H)))))).
Defined.

(** X16.  [RecursiveDecode] reads as many child fields as the count field
    announces and nothing after them: whatever follows inside the frame is
    ignored. *)
Theorem RecursiveDecode_ignores_tail (codeBuf master lenBuf : list byte)
    (childBufs : list (list byte)) (kps : list Keypair) (rest : list byte) (code : Z) :
  UnpackCode codeBuf = Ok code ->
  is_Some (Codes !! code) ->
  UnpackLen lenBuf = Ok (len childBufs) ->
  Forall2 (fun cb kp => decodeKeypair cb = Ok kp) childBufs kps ->
  len codeBuf <= 65535 -> len master <= 65535 -> len lenBuf <= 65535 ->
  Forall (fun cb => len cb <= 65535) childBufs ->
  len (field codeBuf ++ field master ++ field lenBuf
       ++ concat (field <$> childBufs) ++ rest) <= 16777215 ->
  RecursiveDecode
    (frame (field codeBuf ++ field master ++ field lenBuf
            ++ concat (field <$> childBufs) ++ rest))
  = Ok {| Recursivekey.Code := code;
          Recursivekey.Name := Codes_at code;
          Recursivekey.Master := master;
          Recursivekey.MasterLength := len master;
          Recursivekey.ChildrenNum := len childBufs;
          Recursivekey.Children := kps |}.
Proof.
  intros Huc Hcode Hul Hd Hc Hm Hl Hfit Hlen.
  unfold RecursiveDecode. rewrite decodeRecursivekey_frame by assumption.
  rewrite Huc, Hul, len_length, (decodeChildren_fields _ _ Hd Hfit).
  now rewrite (proj2 (validCode_None code) Hcode).
Qed.

Lemma RecursiveDecode_ignores_tail_witness :
  RecursiveDecode
    (frame (field [x12] ++ field [x6d] ++ field [x01]
            ++ concat (field <$> [childFrame child_a]) ++ field (childFrame child_b)))
  = Ok {| Recursivekey.Code := BIP_32;
          Recursivekey.Name := Codes_at BIP_32;
          Recursivekey.Master := [x6d];
          Recursivekey.MasterLength := len [x6d];
          Recursivekey.ChildrenNum := len [childFrame child_a];
          Recursivekey.Children := [child_a] |}.
Proof.
  refine (RecursiveDecode_ignores_tail [x12] [x6d] [x01] [childFrame child_a] [child_a]
            (field (childFrame child_b)) BIP_32 _ _ _ _ _ _ _ _ _).
  - reflexivity.
  - vm_compute. eauto.
  - reflexivity.
  - constructor; [reflexivity|constructor].
  - vm_compute. discriminate.
  - vm_compute. discriminate.
  - vm_compute. discriminate.
  - constructor; [vm_compute; discriminate|constructor].
  - vm_compute. discriminate.
Defined.




(** X18.  A count field that unpacks to zero or, through [int(childLen)], to
    a negative number makes [RecursiveDecode] read no child at all: the key
    it returns has no children and carries the count as it is. *)
Theorem RecursiveDecode_nonpositive_count (codeBuf master lenBuf rest : list byte)
    (code childLen : Z) :
  UnpackCode codeBuf = Ok code ->
  is_Some (Codes !! code) ->
  UnpackLen lenBuf = Ok childLen ->
  childLen <= 0 ->
  len codeBuf <= 65535 -> len master <= 65535 -> len lenBuf <= 65535 ->
  len (field codeBuf ++ field master ++ field lenBuf ++ rest) <= 16777215 ->
  RecursiveDecode (frame (field codeBuf ++ field master ++ field lenBuf ++ rest))
  = Ok {| Recursivekey.Code := code;
          Recursivekey.Name := Codes_at code;
          Recursivekey.Master := master;
          Recursivekey.MasterLength := len master;
          Recursivekey.ChildrenNum := childLen;
          Recursivekey.Children := [] |}.
Proof.
  intros Huc Hcode Hul Hn Hc Hm Hl Hlen.
  unfold RecursiveDecode. rewrite decodeRecursivekey_frame by assumption.
  rewrite Huc, Hul.
  replace (Z.to_nat childLen) with 0%nat by lia. cbn [decodeChildren].
  now rewrite (proj2 (validCode_None code) Hcode).
Qed.

Lemma RecursiveDecode_nonpositive_count_witness :
  UnpackLen (replicate 9 x80 ++ [x01]) = Ok (- 2 ^ 63)
  /\ RecursiveDecode (frame (field [x12] ++ field [x6d]
                             ++ field (replicate 9 x80 ++ [x01])
                             ++ field (childFrame child_a)))
     = Ok {| Recursivekey.Code := BIP_32;
             Recursivekey.Name := Codes_at BIP_32;
             Recursivekey.Master := [x6d];
             Recursivekey.MasterLength := len [x6d];
             Recursivekey.ChildrenNum := - 2 ^ 63;
             Recursivekey.Children := [] |}.
Proof.
  assert (H : UnpackLen (replicate 9 x80 ++ [x01]) = Ok (- 2 ^ 63)) by reflexivity.
  refine (conj H _).
  refine (RecursiveDecode_nonpositive_count [x12] [x6d] (replicate 9 x80 ++ [x01])
            (field (childFrame child_a)) BIP_32 (- 2 ^ 63) _ _ H _ _ _ _ _).
  - reflexivity.
  - vm_compute. eauto.
  - vm_compute. discriminate.
  - vm_compute. discriminate.
  - vm_compute. discriminate.
  - vm_compute. discriminate.
  - vm_compute. discriminate.
Defined.




(** ** Shortest encodings and re-encoding *)

Lemma Uvarint_loop_past_end (buf : list byte) (x s : Z) :
  (Uvarint_loop buf MaxVarintLen64 x s).2 <= 0.
Proof.
  destruct buf; cbn [Uvarint_loop]; [cbn; lia|].
  rewrite Z.eqb_refl. unfold MaxVarintLen64. cbn. lia.
Qed.

(** The reader's loop keeps its accumulator below [2 ^ (7 * i)]; a value it
    returns after [n] bytes is below [2 ^ (7 * n)] and below [2 ^ 64]. *)
Lemma Uvarint_loop_bound (buf : list byte) :
  forall (i x : Z),
    0 <= i <= 9 -> 0 <= x < 2 ^ (7 * i) ->
    forall c n, Uvarint_loop buf i x (7 * i) = (c, n) -> 0 < n ->
    i < n <= i + len buf /\ n <= 10 /\ 0 <= c < 2 ^ (7 * n) /\ c < 2 ^ 64.
Proof.
  induction buf as [|b buf IH]; intros i x Hi Hx c n H Hn.
  - cbn in H. injection H as <- <-. lia.
  - cbn [Uvarint_loop] in H. unfold MaxVarintLen64 in H. rewrite len_cons.
    pose proof (len_nonneg buf) as Hlen. pose proof (byte_to_Z_range b) as Hb.
    destruct (Z.eqb_spec i 10); [lia|].
    destruct (Z.ltb_spec (byte_to_Z b) 0x80) as [Hlt|Hge].
    + destruct (Z.eqb_spec i (10 - 1)) as [->|Hne]; cbn [andb] in H.
      * destruct (Z.ltb_spec 1 (byte_to_Z b)) as [H1|H1].
        { injection H as <- <-. lia. }
        injection H as <- <-.
        rewrite uint64_small in * by (rewrite Z.shiftl_mul_pow2 by lia; cbn in *; lia).
        rewrite lor_add_shiftl by (cbn in *; lia). cbn in *. lia.
      * injection H as <- <-.
        destruct (index_cases i Hi) as [->|[->|[->|[->|[->|[->|[->|[->|[->| ->]]]]]]]]];
          try lia; cbn in Hx |- *;
          (rewrite uint64_small by (rewrite Z.shiftl_mul_pow2 by lia; lia));
          (rewrite lor_add_shiftl by lia); lia.
    + rewrite land_0x7f in H.
      assert (Hm : 0 <= byte_to_Z b mod 128 < 128) by (apply Z.mod_pos_bound; lia).
      destruct (Z.eq_dec i 9) as [->|Hne].
      * change (9 + 1) with MaxVarintLen64 in H.
        pose proof (Uvarint_loop_past_end buf
                      (Z.lor x (uint64 (Z.shiftl (byte_to_Z b mod 128) (7 * 9))))
                      (7 * 9 + 7)) as Hp.
        rewrite H in Hp. cbn in Hp. lia.
      * replace (7 * i + 7) with (7 * (i + 1)) in H by lia.
        assert (Hx' : 0 <= Z.lor x (uint64 (Z.shiftl (byte_to_Z b mod 128) (7 * i)))
                      < 2 ^ (7 * (i + 1))).
        { destruct (index_cases i Hi) as [->|[->|[->|[->|[->|[->|[->|[->|[->| ->]]]]]]]]];
            try lia; cbn in Hx |- *;
            (rewrite uint64_small by (rewrite Z.shiftl_mul_pow2 by lia; lia));
            (rewrite lor_add_shiftl by lia); lia. }
        destruct (IH (i + 1) _ ltac:(lia) Hx' c n H Hn) as (H1 & H2 & H3 & H4). lia.
Qed.

Lemma UvarintSize_le (c n : Z) : 0 <= c < 2 ^ (7 * n) -> 1 <= n -> UvarintSize c <= n.
Proof.
  intros Hc Hn. unfold UvarintSize. cbv zeta.
  assert (Hb : 0 <= Len64 c <= 7 * n).
  { unfold Len64. destruct (Z.eqb_spec c 0); [lia|].
    assert (Z.log2 c < 7 * n) by (apply Z.log2_lt_pow2; lia).
    pose proof (Z.log2_nonneg c). lia. }
  destruct (Z.ltb_spec 0 (Len64 c mod 7)); destruct (Z.eqb_spec (Len64 c / 7) 0);
    cbn [orb]; Z.div_mod_to_equations; lia.
Qed.

Lemma Uvarint_shortest (buf : list byte) (c n : Z) :
  Uvarint buf = (c, n) -> 0 < n ->
  0 <= c < 2 ^ 64 /\ UvarintSize c <= len buf.
Proof.
  intros H Hn. unfold Uvarint in H.
  change (Uvarint_loop buf 0 0 0) with (Uvarint_loop buf 0 0 (7 * 0)) in H.
  destruct (Uvarint_loop_bound buf 0 0 ltac:(lia) ltac:(cbn; lia) c n H Hn)
    as (H1 & H2 & H3 & H4).
  split; [lia|]. pose proof (UvarintSize_le c n H3 ltac:(lia)). lia.
Qed.

Lemma UnpackCode_shortest (buf : list byte) (code : Z) :
  UnpackCode buf = Ok code -> 0 <= code < 2 ^ 64 /\ UvarintSize code <= len buf.
Proof.
  unfold UnpackCode. destruct (Uvarint buf) as [c n] eqn:H.
  destruct (Z.eqb_spec n 0); [discriminate|].
  destruct (Z.ltb_spec n 0); [discriminate|].
  intros [= <-]. apply (Uvarint_shortest buf c n H). lia.
Qed.

(** X20.  [PackCode] writes a shortest encoding: a buffer that unpacks to a
    code holds a [uint64] and is at least as long as what [PackCode] returns
    for that code. *)
Theorem PackCode_shortest (buf : list byte) (code : Z) :
  UnpackCode buf = Ok code ->
  0 <= code < 2 ^ 64
  /\ exists codeBuf, PackCode code = Return codeBuf /\ len codeBuf <= len buf.
Proof.
  intros H. destruct (UnpackCode_shortest buf code H) as [Hc Hs].
  split; [exact Hc|].
  destruct (PackCode_UnpackCode code Hc) as (codeBuf & Hp & _ & Hl).
  exists codeBuf. split; [exact Hp|]. lia.
Qed.

Lemma PackCode_shortest_witness :
  UnpackCode [x91; x80; x00] = Ok 0x11
  /\ exists codeBuf, PackCode 0x11 = Return codeBuf /\ len codeBuf <= len [x91; x80; x00].
Proof.
  assert (H : UnpackCode [x91; x80; x00] = Ok 0x11) by reflexivity.
  exact (conj H (proj2 (PackCode_shortest _ _ H))).
Defined.

(** X6.  A decoded keypair can always be encoded again: [Keypair.Encode] of
    it returns a frame, never longer than the buffer the keypair came from,
    and decoding that frame gives the same keypair. *)
Theorem Decode_reencode (m : list byte) (kp : Keypair) :
  Decode m = Ok kp ->
  exists m', Keypair_Encode kp = Return (Ok m')
             /\ Decode m' = Ok kp
             /\ len m' <= len m.
Proof.
  intros H. apply decodeKeypair_Ok in H
    as (codeBuf & extra & -> & _ & _ & HU & HC & HN & HP & HPl & HQ & HQl).
  destruct (Encode_Decode_frame (Private kp) (Public kp) (Code kp) HC) as [HE HD];
    [lia | lia |].
  eexists. split; [|split].
  - unfold Keypair_Encode. rewrite (proj2 (validCode_None _) HC). exact HE.
  - rewrite HD. destruct kp; cbn in *. now subst.
  - destruct (UnpackCode_shortest _ _ HU) as [Hc Hs].
    destruct (PackCode_uvarint_bytes _ Hc) as (_ & _ & Hl).
    rewrite !len_frame, !len_app, !len_field, Hl.
    pose proof (len_nonneg extra). lia.
Qed.

Lemma Decode_reencode_witness :
  Decode [x00; x00; x0d; x00; x02; x91; x00; x00; x01; x61; x00; x01; x62; xff; xff; xff]
  = Ok (mkKeypair ED_25519 "ed25519" [x62] 1 [x61] 1)
  /\ exists m', Keypair_Encode (mkKeypair ED_25519 "ed25519" [x62] 1 [x61] 1)
                = Return (Ok m')
                /\ Decode m' = Ok (mkKeypair ED_25519 "ed25519" [x62] 1 [x61] 1)
                /\ len m' <= len [x00; x00; x0d; x00; x02; x91; x00; x00; x01; x61;
                                  x00; x01; x62; xff; xff; xff].
Proof.
  assert (H : Decode [x00; x00; x0d; x00; x02; x91; x00; x00; x01; x61; x00; x01; x62;
                      xff; xff; xff]
              = Ok (mkKeypair ED_25519 "ed25519" [x62] 1 [x61] 1)) by reflexivity.
  exact (conj H (Decode_reencode _ _ H)).
Defined.

(** The child fields the loop has read, with what each decoded to. *)
Lemma decodeChildren_fields_inv (n : nat) :
  forall (values : list byte) (acc kps : list Keypair),
    decodeChildren n values acc = Ok kps ->
    exists childBufs new rest,
      values = concat (field <$> childBufs) ++ rest
      /\ kps = acc ++ new /\ length new = n
      /\ Forall2 (fun cb kp => decodeKeypair cb = Ok kp) childBufs new
      /\ Forall (fun cb => len cb < 2 ^ 16) childBufs.
Proof.
  induction n as [|n IH]; intros values acc kps H.
  - cbn in H. injection H as <-. exists [], [], values.
    rewrite app_nil_r. repeat split; constructor.
  - cbn [decodeChildren] in H.
    destruct (ReadUint16LengthPrefixed values) as [[cb values']|] eqn:Hr; [|discriminate].
    apply ReadUint16_Some in Hr as [-> Hcb].
    destruct (decodeKeypair cb) as [kp|err] eqn:Hkp; [|discriminate].
    apply IH in H as (childBufs & new & rest & -> & -> & Hlen & Hall & Hfit).
    exists (cb :: childBufs), (kp :: new), rest.
    cbn [fmap list_fmap concat length].
    rewrite <- !app_assoc. repeat split; try reflexivity; try lia; constructor; auto.
Qed.

Lemma decoded_child_valid (cb : list byte) (kp : Keypair) :
  decodeKeypair cb = Ok kp -> len cb < 2 ^ 16 ->
  valid_child kp /\ childFrameLen kp <= len cb.
Proof.
  intros H Hcb. apply decodeKeypair_Ok in H
    as (codeBuf & extra & -> & _ & _ & HU & HC & HN & HP & _ & HQ & _).
  destruct (UnpackCode_shortest _ _ HU) as [Hc Hs].
  assert (Hle : childFrameLen kp
                <= len (frame (field codeBuf ++ field (Private kp)
                               ++ field (Public kp) ++ extra))).
  { unfold childFrameLen. rewrite len_frame, !len_app, !len_field.
    pose proof (len_nonneg extra). lia. }
  split; [|exact Hle]. repeat split; try assumption. lia.
Qed.

Lemma decoded_children_valid (childBufs : list (list byte)) (kps : list Keypair) :
  Forall2 (fun cb kp => decodeKeypair cb = Ok kp) childBufs kps ->
  Forall (fun cb => len cb < 2 ^ 16) childBufs ->
  Forall valid_child kps
  /\ childFieldsLen kps <= len (concat (field <$> childBufs)).
Proof.
  induction 1 as [|cb kp childBufs kps Hd _ IH]; intros Hfit.
  - split; [constructor|reflexivity].
  - apply Forall_cons in Hfit as [Hcb Hfit]. destruct (IH Hfit) as [Hv Hl].
    destruct (decoded_child_valid cb kp Hd Hcb) as [Hvk Hlk].
    split; [constructor; assumption|].
    cbn [fmap list_fmap concat childFieldsLen foldr]. fold (childFieldsLen kps).
    rewrite len_app, len_field. lia.
Qed.

Lemma encodeRecursivekey_round_trip (master : list byte) (children : list Keypair)
    (code : Z) :
  is_Some (Codes !! code) -> len master <= 65535 -> Forall valid_child children ->
  recursiveBodyLen master children code <= 16777215 ->
  exists m, encodeRecursivekey master children code = Return m
    /\ len m = 3 + recursiveBodyLen master children code
    /\ RecursiveDecode m
       = Ok {| Recursivekey.Code := code;
               Recursivekey.Name := Codes_at code;
               Recursivekey.Master := master;
               Recursivekey.MasterLength := len master;
               Recursivekey.ChildrenNum := len children;
               Recursivekey.Children := children |}.
Proof.
  intros Hcode Hm Hch Hlen.
  pose proof (Codes_uint64 _ Hcode) as Hc.
  pose proof (recursiveBodyLen_children _ _ _ Hlen) as Hn.
  assert (Henc : Forall encodable children)
    by (eapply Forall_impl; [exact Hch|exact valid_child_encodable]).
  destruct (PackCode_uvarint_bytes code Hc) as (_ & Huc & Hlc).
  destruct (PackLen_uvarint_bytes _ Hn) as (_ & Hul).
  destruct (PackCode_uvarint_bytes (len children)) as (_ & _ & Hll); [lia|].
  pose proof (UvarintSize_le_10 code Hc).
  pose proof (UvarintSize_le_10 (len children) ltac:(lia)).
  destruct (children_effect_encodable children Henc) as [_ Hcl].
  assert (Hbody : len (field (uvarint_bytes code) ++ field master
                       ++ field (uvarint_bytes (len children)) ++ childFields children)
                  = recursiveBodyLen master children code).
  { rewrite !len_app, !len_field, Hcl, Hlc, Hll. unfold recursiveBodyLen. lia. }
  eexists. split; [apply encodeRecursivekey_frame; assumption|].
  split; [rewrite len_frame, Hbody; reflexivity|].
  unfold RecursiveDecode. rewrite decodeRecursivekey_frame by lia.
  rewrite Huc, Hul, len_length, childFields_concat.
  rewrite <- (length_fmap childFrame children).
  rewrite <- (app_nil_r (concat _)).
  rewrite (decodeChildren_fields (childFrame <$> children) children).
  - rewrite (proj2 (validCode_None code) Hcode). reflexivity.
  - apply Forall2_fmap_l, Forall_Forall2_diag.
    eapply Forall_impl; [exact Hch|exact decodeKeypair_childFrame].
  - apply Forall_fmap. eapply Forall_impl; [exact Henc|].
    intros child [Hcc Hcl']. change (len (childFrame child) <= 65535).
    rewrite len_childFrame by exact Hcc. exact Hcl'.
Qed.

Lemma UnpackLen_shortest (buf : list byte) (n : Z) :
  UnpackLen buf = Ok n -> 0 <= n -> UvarintSize n <= len buf.
Proof.
  unfold UnpackLen. destruct (Uvarint buf) as [c k] eqn:H.
  destruct (Z.eqb_spec k 0); [discriminate|].
  destruct (Z.ltb_spec k 0); [discriminate|].
  intros [= <-] Hn. destruct (Uvarint_shortest buf c k H ltac:(lia)) as [Hc Hs].
  unfold int64_of_uint64 in *. destruct (Z.ltb_spec c (2 ^ 63)); [exact Hs|lia].
Qed.

(** X21.  A decoded recursive key with a non-negative count can always be
    built again: [encodeRecursivekey] of its master key, children and code
    returns a frame (no field or frame limit is hit), never longer than the
    buffer the key came from, and decoding that frame gives the same key. *)
Theorem RecursiveDecode_reencode (m : list byte) (rk : Recursivekey.t) :
  RecursiveDecode m = Ok rk ->
  0 <= Recursivekey.ChildrenNum rk ->
  exists m', encodeRecursivekey (Recursivekey.Master rk) (Recursivekey.Children rk)
               (Recursivekey.Code rk) = Return m'
             /\ RecursiveDecode m' = Ok rk
             /\ len m' <= len m.
Proof.
  intros H Hn. apply decodeRecursivekey_Ok in H
    as (codeBuf & lenBuf & rest & -> & Hlen & Hc & Hm & Hl & HU & HL & HD & HC & HN & HM).
  apply decodeChildren_fields_inv in HD
    as (childBufs & new & rest' & -> & Hk & Hnew & Hall & Hfit). cbn [app] in Hk.
  destruct (decoded_children_valid _ _ Hall Hfit) as [Hv Hcl].
  destruct (UnpackCode_shortest _ _ HU) as [_ Hsc].
  assert (Hcount : Recursivekey.ChildrenNum rk = len (Recursivekey.Children rk)).
  { rewrite Hk. unfold len. rewrite Hnew. lia. }
  pose proof (UnpackLen_shortest _ _ HL Hn) as Hsl.
  rewrite !len_app, !len_field in Hlen.
  pose proof (len_nonneg rest').
  assert (Hbody : recursiveBodyLen (Recursivekey.Master rk) (Recursivekey.Children rk)
                    (Recursivekey.Code rk)
                  <= len (field codeBuf ++ field (Recursivekey.Master rk)
                          ++ field lenBuf ++ concat (field <$> childBufs) ++ rest')).
  { unfold recursiveBodyLen. rewrite <- Hcount, Hk, !len_app, !len_field. lia. }
  rewrite !len_app, !len_field in Hbody.
  destruct (encodeRecursivekey_round_trip (Recursivekey.Master rk)
              (Recursivekey.Children rk) (Recursivekey.Code rk) HC)
    as (m' & He & Hlm & Hd); [lia | now rewrite Hk | lia |].
  exists m'. split; [exact He|]. split.
  - rewrite Hd. destruct rk; cbn in *. now subst.
  - rewrite Hlm, len_frame, !len_app, !len_field. lia.
Qed.

Lemma RecursiveDecode_reencode_witness :
  RecursiveDecode (frame (field [x92; x00] ++ field [x6d] ++ field [x81; x00]
                          ++ field (childFrame child_a) ++ [xff]))
  = Ok (Recursivekey.mk BIP_32 "bip32" [x6d] 1 1 [child_a])
  /\ exists m', encodeRecursivekey [x6d] [child_a] BIP_32 = Return m'
       /\ RecursiveDecode m' = Ok (Recursivekey.mk BIP_32 "bip32" [x6d] 1 1 [child_a])
       /\ len m' <= len (frame (field [x92; x00] ++ field [x6d] ++ field [x81; x00]
                                ++ field (childFrame child_a) ++ [xff])).
Proof.
  assert (H : RecursiveDecode (frame (field [x92; x00] ++ field [x6d] ++ field [x81; x00]
                                      ++ field (childFrame child_a) ++ [xff]))
              = Ok (Recursivekey.mk BIP_32 "bip32" [x6d] 1 1 [child_a])) by reflexivity.
  refine (conj H _).
  refine (RecursiveDecode_reencode _ _ H _). vm_compute. discriminate.
Defined.
